(** * nubia-cli: name normalisation, choice patterns and command suggestions

    A shallow embedding of [nubia/internal/helpers.py] (the functions
    [transform_name], [transform_class_name], [find_approx],
    [matches_choice_pattern] and [try_await]) together with the properties
    the specification states about them. The command engine that uses them
    (parser, binder, dispatcher) is not among the source files; module
    [Shell] models it from the specification, and holds the commands of the
    tests that drive it.

    Conventions of the embedding.
    - A Python [str] is a [string] over the code points 0 to 255, which are
      the characters of [ascii]; strings compare by code point, so [sorted]
      on names is the order [String.le].
    - A call that may raise returns a [result]: [Return v] or [Raise e].
    - A [set] is a [gset string], a [dict] a [gmap string nat].
    - [re.compile], [str] on a choice value and
      [jellyfish.damerau_levenshtein_distance] belong to libraries outside
      the repository: the functions take them as parameters. A model of each
      is given as well, to evaluate the functions on concrete inputs. *)

From stdpp Require Import base list strings gmap sorting pretty.
From Stdlib Require Import Ascii.

(* stdpp's solvers clear hypotheses by name, section variables included. *)
Set Warnings "-clear-no-such-hyp".

(** ** Exceptions and results *)

(** [re.error], [ValueError], the classes of [nubia/internal/exceptions.py]
    with the data the engine attaches to them, and any other exception. *)
Inductive exn : Type :=
  | re_error
  | ValueError (msg : string)
  | CommandParseError (msg : string)
  | UnknownCommand (suggestions : list string)
  | ArgsValidationError (msg : string)
  | OtherError.

Inductive result (A : Type) : Type :=
  | Return (a : A)
  | Raise (e : exn).
Arguments Return {A} a.
Arguments Raise {A} e.

Global Instance exn_eq_dec : EqDecision exn.
Proof. solve_decision. Defined.
Global Instance result_eq_dec `{EqDecision A} : EqDecision (result A).
Proof. solve_decision. Defined.

(** [try_await(result)]: an awaitable is awaited, anything else is returned
    as it is. Awaiting gives a value or raises. *)
Inductive returned (A : Type) : Type :=
  | Plain (a : A)
  | Awaitable (outcome : result A).
Arguments Plain {A} a.
Arguments Awaitable {A} outcome.

Definition try_await {A} (r : returned A) : result A :=
  match r with
  | Awaitable outcome => outcome
  | Plain a => Return a
  end.

(** ** Strings *)

(** [s.startswith(p)] *)
Definition startswith (s p : string) : bool := String.prefix p s.

(** [s[n:]] *)
Fixpoint slice_from (n : nat) (s : string) : string :=
  match n, s with
  | 0, _ => s
  | S _, EmptyString => EmptyString
  | S n, String _ s => slice_from n s
  end.

(** [c.lower()] and [s.lower()]: the upper-case letters below code point 256
    are A to Z and the accented capitals 192 to 222 without the sign 215. *)
Definition is_upper (c : ascii) : bool :=
  let n := nat_of_ascii c in
  bool_decide (65 ≤ n ≤ 90 ∨ 192 ≤ n ≤ 214 ∨ 216 ≤ n ≤ 222).

Definition lower_char (c : ascii) : ascii :=
  if is_upper c then ascii_of_nat (nat_of_ascii c + 32) else c.

Fixpoint lower (s : string) : string :=
  match s with
  | EmptyString => EmptyString
  | String c s => String (lower_char c) (lower s)
  end.

(** ** The pattern choice validator *)

Section matches_choice_pattern.
(** The type of the values in a [choices] list and Python's [str] on them. *)
Context {choice : Type} (str : choice → string).
(** [re.compile(pattern)]: it returns a pattern object, which the function
    drops, or raises. *)
Variable re_compile : string → result unit.

(** [try: re.compile(pattern); return True / except re.error: return False] *)
Definition valid_regex (pattern : string) : result bool :=
  match re_compile pattern with
  | Return _ => Return true
  | Raise re_error => Return false
  | Raise e => Raise e
  end.

Definition matches_choice_pattern (value : string) (choices : list choice)
  : result bool :=
  if startswith value "!~" then
    let pattern := slice_from 2 value in
    valid_regex pattern
  else if startswith value "~" then
    let pattern := slice_from 1 value in
    valid_regex pattern
  else if startswith value "!" then
    let literal := slice_from 1 value in
    Return (bool_decide (literal ∈ str <$> choices))
  else
    Return (bool_decide (value ∈ str <$> choices)).
End matches_choice_pattern.

(** ** A model of [re.compile]

    The scanner below follows the parser of CPython's [re] (3.11) on the
    patterns built from literal characters, [.], [^], [$], alternation,
    plain groups, bracket sets and the repeats [*], [+], [?] with their lazy
    and possessive modifiers. It answers [None] on a pattern that uses a
    backslash, a brace or a group extension [(?...)]. *)

Inductive item : Type :=
  | NoItem      (* the sequence is empty: start, after [|] *)
  | Opened      (* just after [(] *)
  | AtItem      (* [^] or [$] *)
  | Atom        (* a literal, [.], a set or a group *)
  | Quant       (* a repeat; a modifier may follow *)
  | Repeat.     (* a repeat with its modifier *)

Inductive scan : Type :=
  | Seq (depth : nat) (last : item)   (* outside a set, [depth] open groups *)
  | SetOpen (depth : nat)             (* after [[]: a [^] may follow *)
  | SetItems (depth : nat) (nonempty : bool)
  | SetLo (depth : nat) (lo : ascii)  (* an element read; a [-] may follow *)
  | SetDash (depth : nat) (lo : ascii).

Definition is_repeat_char (c : ascii) : bool :=
  bool_decide (c = "*" ∨ c = "+" ∨ c = "?")%char.

(** The element [c] of a set, read when the set holds [nonempty] elements. *)
Definition scan_set_element (depth : nat) (nonempty : bool) (c : ascii)
  : option (result scan) :=
  if bool_decide (c = "]"%char) && nonempty then Some (Return (Seq depth Atom))
  else if bool_decide (c = "\"%char) then None
  else Some (Return (SetLo depth c)).

Definition scan_step (st : scan) (c : ascii) : option (result scan) :=
  match st with
  | Seq depth last =>
      if bool_decide (c = "\"%char ∨ c = "{"%char) then None
      else if is_repeat_char c then
        match last with
        | NoItem | AtItem => Some (Raise re_error)     (* nothing to repeat *)
        | Opened =>
            if bool_decide (c = "?"%char) then None
            else Some (Raise re_error)
        | Atom => Some (Return (Seq depth Quant))
        | Quant =>
            if bool_decide (c = "*"%char) then Some (Raise re_error)
            else Some (Return (Seq depth Repeat))
        | Repeat => Some (Raise re_error)              (* multiple repeat *)
        end
      else if bool_decide (c = "("%char) then Some (Return (Seq (S depth) Opened))
      else if bool_decide (c = ")"%char) then
        match depth with
        | 0 => Some (Raise re_error)                   (* unbalanced parenthesis *)
        | S depth => Some (Return (Seq depth Atom))
        end
      else if bool_decide (c = "|"%char) then Some (Return (Seq depth NoItem))
      else if bool_decide (c = "^"%char ∨ c = "$"%char) then
        Some (Return (Seq depth AtItem))
      else if bool_decide (c = "["%char) then Some (Return (SetOpen depth))
      else Some (Return (Seq depth Atom))
  | SetOpen depth =>
      if bool_decide (c = "^"%char) then Some (Return (SetItems depth false))
      else scan_set_element depth false c
  | SetItems depth nonempty => scan_set_element depth nonempty c
  | SetLo depth lo =>
      if bool_decide (c = "-"%char) then Some (Return (SetDash depth lo))
      else scan_set_element depth true c
  | SetDash depth lo =>
      if bool_decide (c = "]"%char) then Some (Return (Seq depth Atom))
      else if bool_decide (c = "\"%char) then None
      else if bool_decide (nat_of_ascii c < nat_of_ascii lo)
      then Some (Raise re_error)                       (* bad character range *)
      else Some (Return (SetItems depth true))
  end.

Fixpoint scan_pattern (st : scan) (pattern : string) : option (result unit) :=
  match pattern with
  | EmptyString =>
      match st with
      | Seq 0 _ => Some (Return ())
      | _ => Some (Raise re_error)   (* missing ), unterminated character set *)
      end
  | String c pattern =>
      match scan_step st c with
      | Some (Return st) => scan_pattern st pattern
      | Some (Raise e) => Some (Raise e)
      | None => None
      end
  end.

(** The model: the scanner's answer, and [re.error] where it has none. *)
Definition re_compile_model (pattern : string) : result unit :=
  default (Raise re_error) (scan_pattern (Seq 0 NoItem) pattern).

(** ** The suggestion engine *)

(** The key [(i[1], i[0])] of the final sort, compared as Python compares
    tuples: by distance, then by name. *)
Definition item_le (i1 i2 : string * nat) : Prop :=
  i1.2 < i2.2 ∨ (i1.2 = i2.2 ∧ String.le i1.1 i2.1).

Global Instance item_le_dec : RelDecision item_le.
Proof. intros i1 i2. unfold item_le. apply _. Defined.

(** [sorted] returns a sorted permutation; on the elements of a set, and on
    the items of a dict under the key above, there is only one (see
    [sorted_unique] and [sorted_items_unique]). *)
Definition sorted (l : list string) : list string := merge_sort String.le l.
Definition sorted_items (l : list (string * nat)) : list (string * nat) :=
  merge_sort item_le l.

Record suggestions : Type := {
  prefix_suggestions : gset string;
  levenshtein_suggestions : gmap string nat;
}.

Section find_approx.
(** [jellyfish.damerau_levenshtein_distance] *)
Variable damerau_levenshtein_distance : string → string → nat.

(** The body of the loop over [cmd_map]. *)
Definition find_approx_step (cmd_input : string) (st : suggestions)
    (another_command : string) : suggestions :=
  if startswith another_command (lower cmd_input) then
    {| prefix_suggestions := prefix_suggestions st ∪ {[another_command]};
       levenshtein_suggestions := levenshtein_suggestions st |}
  else if bool_decide (1 < String.length another_command) then
    let distance :=
      damerau_levenshtein_distance (lower cmd_input) another_command in
    if bool_decide (distance ≤ 2) then
      {| prefix_suggestions := prefix_suggestions st;
         levenshtein_suggestions :=
           <[another_command := distance]> (levenshtein_suggestions st) |}
    else st
  else st.

(** [cmd_map] is the sequence the iterable yields. *)
Definition find_approx (cmd_input : string) (cmd_map : list string)
  : list string :=
  let st :=
    foldl (find_approx_step cmd_input)
      {| prefix_suggestions := ∅; levenshtein_suggestions := ∅ |} cmd_map in
  if bool_decide (prefix_suggestions st ≠ ∅) then
    sorted (elements (prefix_suggestions st))
  else
    (sorted_items (map_to_list (levenshtein_suggestions st))).*1.
End find_approx.

(** ** A model of [jellyfish.damerau_levenshtein_distance]

    The library's algorithm: the distance with adjacent transpositions,
    computed in a matrix [score] with a border row and column, [da] holding
    the last row in which each character of [s1] occurred. *)

Definition char_at (s : string) (i : nat) : ascii :=
  default "000"%char (String.get i s).

Definition score_at (score : gmap (nat * nat) nat) (i j : nat) : nat :=
  default 0 (score !! (i, j)).

Definition dl_inner (s1 s2 : string) (da : gmap ascii nat) (i : nat)
    (acc : gmap (nat * nat) nat * nat) (j : nat) : gmap (nat * nat) nat * nat :=
  let '(score, db) := acc in
  let i1 := default 0 (da !! char_at s2 (j - 1)) in
  let j1 := db in
  let same := bool_decide (char_at s1 (i - 1) = char_at s2 (j - 1)) in
  let cost := if same then 0 else 1 in
  let d :=
    Nat.min (score_at score i j + cost)
      (Nat.min (score_at score (i + 1) j + 1)
         (Nat.min (score_at score i (j + 1) + 1)
            (score_at score i1 j1 + (i - i1 - 1) + 1 + (j - j1 - 1)))) in
  (<[(i + 1, j + 1) := d]> score, if same then j else db).

Definition dl_outer (s1 s2 : string)
    (acc : gmap (nat * nat) nat * gmap ascii nat) (i : nat)
    : gmap (nat * nat) nat * gmap ascii nat :=
  let '(score, da) := acc in
  let '(score, _) :=
    foldl (dl_inner s1 s2 da i) (score, 0) (seq 1 (String.length s2)) in
  (score, <[char_at s1 (i - 1) := i]> da).

Definition damerau_levenshtein_model (s1 s2 : string) : nat :=
  let len1 := String.length s1 in
  let len2 := String.length s2 in
  let infinite := len1 + len2 in
  let score : gmap (nat * nat) nat := {[ (0, 0) := infinite ]} in
  let score :=
    foldl (λ score i, <[(i + 1, 1) := i]> (<[(i + 1, 0) := infinite]> score))
      score (seq 0 (len1 + 1)) in
  let score :=
    foldl (λ score i, <[(1, i + 1) := i]> (<[(0, i + 1) := infinite]> score))
      score (seq 0 (len2 + 1)) in
  let '(score, _) := foldl (dl_outer s1 s2) (score, ∅) (seq 1 len1) in
  score_at score (len1 + 1) (len2 + 1).

(** ** The name normaliser *)

(** The characters [str.strip] removes. *)
Definition is_space (c : ascii) : bool :=
  let n := nat_of_ascii c in
  bool_decide (9 ≤ n ≤ 13 ∨ 28 ≤ n ≤ 32 ∨ n = 133 ∨ n = 160).

Fixpoint lstrip (s : string) : string :=
  match s with
  | EmptyString => EmptyString
  | String c s' => if is_space c then lstrip s' else s
  end.

Fixpoint rstrip (s : string) : string :=
  match s with
  | EmptyString => EmptyString
  | String c s' =>
      match rstrip s' with
      | EmptyString => if is_space c then EmptyString else String c EmptyString
      | r => String c r
      end
  end.

Definition strip (s : string) : string := rstrip (lstrip s).

(** [re.sub(from_char+, to_char, s)]: every maximal run of [from_char]
    becomes one [to_char]; [in_run] tells that the previous character
    belonged to a run. *)
Fixpoint sub_runs (from_char to_char : ascii) (in_run : bool) (s : string)
  : string :=
  match s with
  | EmptyString => EmptyString
  | String c s' =>
      if bool_decide (c = from_char) then
        if in_run then sub_runs from_char to_char true s'
        else String to_char (sub_runs from_char to_char true s')
      else String c (sub_runs from_char to_char false s')
  end.

(** Where [$] matches: at the end, and before a newline that ends the string. *)
Definition at_dollar (s : string) : bool :=
  bool_decide (s = EmptyString ∨ s = String "010"%char EmptyString).

(** The matches of the alternative [to_char$] are removed. *)
Fixpoint sub_trailing (to_char : ascii) (s : string) : string :=
  match s with
  | EmptyString => EmptyString
  | String c s' =>
      if bool_decide (c = to_char) && at_dollar s' then sub_trailing to_char s'
      else String c (sub_trailing to_char s')
  end.

(** [re.sub(^to_char|to_char$, empty, s)] *)
Definition sub_ends (to_char : ascii) (s : string) : string :=
  match s with
  | String c s' =>
      if bool_decide (c = to_char) then sub_trailing to_char s'
      else sub_trailing to_char s
  | EmptyString => EmptyString
  end.

Definition dquote : ascii := "034"%char.

(** [from_char] and [to_char] are one character each, as in every use; a
    backslash as [to_char] is no replacement template and [re.sub] raises. *)
Definition transform_name_with (from_char to_char : ascii) (name : string)
  : result string :=
  let name := strip name in
  if bool_decide (to_char = "\"%char) then Raise re_error else
  let name := sub_runs from_char to_char false name in
  let name := sub_ends to_char name in
  if bool_decide (name = EmptyString) then
    Raise (ValueError
             ("Invalid name " +:+ String dquote (name +:+ String dquote "")))
  else Return name.

(** [transform_name(name)], with the default separators. *)
Definition transform_name (name : string) : result string :=
  transform_name_with "_" "-" name.

(** [transform_class_name(name)] *)
Fixpoint dash_capitals (new_name : string) (res_empty : bool) : string :=
  match new_name with
  | EmptyString => EmptyString
  | String c new_name =>
      if bool_decide (65 ≤ nat_of_ascii c ≤ 90) && negb res_empty
      then String "-" (String (lower_char c) (dash_capitals new_name false))
      else String (lower_char c) (dash_capitals new_name false)
  end.

Definition transform_class_name (name : string) : result string :=
  match transform_name name with
  | Return new_name => Return (dash_capitals new_name true)
  | Raise e => Raise e
  end.

(** The name after the three rewriting steps of [transform_name], before the
    test for emptiness. *)
Definition reduced_name (name : string) : string :=
  sub_ends "-" (sub_runs "_" "-" false (strip name)).





(** Predicates on names: [all_chars P s] holds when every character of [s]
    satisfies [P]; [is_alpha] is [str.isalpha] on one character. *)
Fixpoint all_chars (P : ascii → bool) (s : string) : bool :=
  match s with
  | EmptyString => true
  | String c s => P c && all_chars P s
  end.

Definition is_alpha (c : ascii) : bool :=
  let n := nat_of_ascii c in
  bool_decide (65 ≤ n ≤ 90 ∨ 97 ≤ n ≤ 122 ∨ n = 170 ∨ n = 181 ∨ n = 186 ∨
               192 ≤ n ≤ 214 ∨ 216 ≤ n ≤ 246 ∨ 248 ≤ n ≤ 255).

(** The input domain of the normaliser: letters and the separator [_]. *)
Definition name_char (c : ascii) : bool :=
  is_alpha c || bool_decide (c = "_"%char).

(** The alphabets of the normaliser, for separators [from_char] and
    [to_char]: the characters of a name besides the two separators, those of
    an input name, and those of a normalised one. *)
Definition plain_char (from_char to_char c : ascii) : bool :=
  negb (is_space c) && bool_decide (c ≠ to_char) && bool_decide (c ≠ from_char).
Definition input_char (from_char to_char c : ascii) : bool :=
  bool_decide (c = from_char) || plain_char from_char to_char c.
Definition output_char (from_char to_char c : ascii) : bool :=
  bool_decide (c = to_char) || plain_char from_char to_char c.

(** [to_char] neither starts [s] when [after_sep] holds nor occurs twice in a
    row in [s]. *)
Fixpoint separated (to_char : ascii) (after_sep : bool) (s : string) : bool :=
  match s with
  | EmptyString => true
  | String c s =>
      if bool_decide (c = to_char)
      then negb after_sep && separated to_char true s
      else separated to_char false s
  end.

(** A normal form: output characters, no [to_char] at either end. *)
Definition normal (from_char to_char : ascii) (s : string) : Prop :=
  all_chars (output_char from_char to_char) s = true ∧
  separated to_char true s = true ∧
  sub_trailing to_char s = s.

(** ** The command engine *)

Module Shell.

(** Modelled from the spec: the coerced values of section 4.5 (int, string
    and the sequence a variadic argument collects); the binder is not among
    the source files. *)
#[warnings="-register-all"]
Inductive value : Type :=
  | VInt (n : Z)
  | VStr (s : string)
  | VList (l : list value).

(** Modelled from the spec: Python's [str] on a choice value, for the
    stringified comparison of section 4.2; choices are ints or strings. *)
Definition str_value (v : value) : string :=
  match v with
  | VInt n => pretty n
  | VStr s => s
  | VList _ => ""
  end.

(** Modelled from the spec: the ArgumentDescriptor of section 3, whose
    declaration is not among the source files. [declared_type] is the
    coercion, which may raise; an absent default means required. *)
Record ArgumentDescriptor : Type := {
  arg_name : string;
  arg_aliases : list string;
  is_positional : bool;
  variadic : bool;
  declared_type : string → result value;
  choices : list value;
  arg_default : option value;
}.

Abbreviation frame := (gmap string value).

(** Modelled from the spec: what a handler returns (section 4.7, step 6):
    nothing or an integer. *)
Inductive handler_value : Type :=
  | PyNone
  | PyInt (n : Z).

(** Modelled from the spec: the CommandDescriptor of section 3, whose
    declaration is not among the source files. The handler receives the
    shared arguments of the super-command instances on its path, root
    first, and its own call frame; calling it raises or returns a value or
    an awaitable. [subcommands] is non-empty for a super-command, whose
    [arguments] are its constructor's. *)
#[warnings="-register-all"]
Inductive CommandDescriptor : Type := {
  canonical_name : string;
  aliases : list string;
  handler : list frame → frame → result (returned handler_value);
  arguments : list ArgumentDescriptor;
  subcommands : list CommandDescriptor;
}.

(** Modelled from the spec: the lexical classes of section 4.6, after the
    tokenizer, which is not among the source files: a bare token, and a
    keyword token [--name=value] or [name=value]. *)
Inductive token : Type :=
  | Word (w : string)
  | KeyValue (k v : string).

(** Modelled from the spec: the ParseResult of section 3 for a line that
    resolves: the path root to leaf, the keyword tokens by name and the
    positional tokens in order. *)
Record ParseResult : Type := {
  resolved_command_path : list CommandDescriptor;
  bound_tokens : gmap string string;
  positionals : list string;
}.

Section engine.
Variable re_compile : string → result unit.
Variable damerau_levenshtein_distance : string → string → nat.
(** The exit codes section 6 leaves open: the one of a line that does not
    parse and the one of a handler that raises. *)
Variable parse_error_code fatal_code : Z.

(** Modelled from the spec: the exit codes section 6 gives, success and the
    validation failure of the test fixtures; the dispatcher is not among the
    source files. *)
Definition success_code : Z := 0.
Definition validation_code : Z := 4.

(** Modelled from the spec: registry lookup by name or alias
    (section 4.4). *)
Definition names (d : CommandDescriptor) : list string :=
  canonical_name d :: aliases d.

(** Modelled from the spec: [resolve] of section 4.4 for one token in one
    scope, the registry or the subcommands of a super-command. *)
Definition resolve (w : string) (scope : list CommandDescriptor)
  : option CommandDescriptor :=
  list_find (λ d, w ∈ names d) scope ≫= λ r, Some r.2.

(** Modelled from the spec: the keyword and positional tokens of the
    leaf command's scope (section 4.6). A later keyword token of the same
    name replaces an earlier one. *)
Definition collect_keywords (kv : gmap string string) (tokens : list token)
  : gmap string string :=
  foldl (λ kv t, match t with KeyValue k v => <[k:=v]> kv | Word _ => kv end)
    kv tokens.

(** Modelled from the spec: the bare tokens of the leaf command's scope, in
    order (section 4.6). *)
Definition collect_positionals (tokens : list token) : list string :=
  omap (λ t, match t with Word w => Some w | KeyValue _ _ => None end) tokens.


(** Modelled from the spec: the walk of section 4.6 below the resolved
    command [d]. At a super-command the next bare token must name a
    subcommand, keyword tokens met on the way are kept, and a line that
    ends there selects no subcommand. At a leaf the rest of the line is
    its arguments. *)
Fixpoint descend (tokens : list token) (d : CommandDescriptor)
    (path : list CommandDescriptor) (kv : gmap string string)
  : result ParseResult :=
  match subcommands d with
  | [] =>
      Return {| resolved_command_path := path;
                bound_tokens := collect_keywords kv tokens;
                positionals := collect_positionals tokens |}
  | scope =>
      match tokens with
      | [] => Raise (CommandParseError "ambiguous command")
      | KeyValue k v :: tokens => descend tokens d path (<[k:=v]> kv)
      | Word w :: tokens =>
          match resolve w scope with
          | Some d' => descend tokens d' (path ++ [d']) kv
          | None =>
              Raise (UnknownCommand
                       (find_approx damerau_levenshtein_distance w
                          (scope ≫= names)))
          end
      end
  end.

(** Modelled from the spec: [parse(line, registry)] of section 4.6 on a
    tokenized line. *)
Definition parse (line : list token) (registry : list CommandDescriptor)
  : result ParseResult :=
  match line with
  | Word w :: tokens =>
      match resolve w registry with
      | Some d => descend tokens d [d] ∅
      | None =>
          Raise (UnknownCommand
                   (find_approx damerau_levenshtein_distance w
                      (registry ≫= names)))
      end
  | _ => Raise (CommandParseError "ambiguous command")
  end.

(** Modelled from the spec: coercion and choice check of one bound token
    (section 4.5). *)
Definition bind_value (a : ArgumentDescriptor) (raw : string) : result value :=
  match declared_type a raw with
  | Raise _ => Raise (ArgsValidationError "invalid value")
  | Return v =>
      match choices a with
      | [] => Return v
      | cs =>
          match matches_choice_pattern str_value re_compile raw cs with
          | Return true => Return v
          | _ => Raise (ArgsValidationError "invalid choice")
          end
      end
  end.

(** Modelled from the spec: the tokens a variadic argument consumes, each
    coerced and checked (section 4.5). *)
Fixpoint bind_values (a : ArgumentDescriptor) (raws : list string)
  : result (list value) :=
  match raws with
  | [] => Return []
  | raw :: raws =>
      match bind_value a raw, bind_values a raws with
      | Return v, Return vs => Return (v :: vs)
      | Raise e, _ | _, Raise e => Raise e
      end
  end.

(** Modelled from the spec: the keyword token of an argument, by name or
    alias (section 4.5, step 2). *)
Definition keyword (a : ArgumentDescriptor) (kv : gmap string string)
  : option string :=
  list_find (λ n, is_Some (kv !! n)) (arg_name a :: arg_aliases a)
    ≫= λ r, kv !! r.2.

(** Modelled from the spec: [bind] of section 4.5: positional arguments
    take the positional tokens left to right, a variadic one all that
    remain; keyword arguments are found by name or alias; then the
    default; an argument left unbound without a default is an error. *)
Fixpoint bind (args : list ArgumentDescriptor) (raw_args : gmap string string)
    (positional_args : list string) (call_frame : frame) : result frame :=
  match args with
  | [] => Return call_frame
  | a :: args =>
      let continue v positional_args :=
        bind args raw_args positional_args (<[arg_name a := v]> call_frame) in
      let unbound :=
        match arg_default a with
        | Some v => continue v positional_args
        | None => Raise (ArgsValidationError "missing argument")
        end in
      if is_positional a && variadic a then
        match bind_values a positional_args with
        | Return vs => continue (VList vs) []
        | Raise e => Raise e
        end
      else
        let '(raw, rest) :=
          if is_positional a then
            match positional_args with
            | p :: rest => (Some p, rest)
            | [] => (None, [])
            end
          else (keyword a raw_args, positional_args) in
        match raw with
        | Some raw =>
            match bind_value a raw with
            | Return v => continue v rest
            | Raise e => Raise e
            end
        | None => unbound
        end
  end.

(** Modelled from the spec: step 2 of section 4.7: every super-command on
    the path is instantiated with its shared arguments, bound from the
    keyword tokens of the line. *)
Fixpoint instantiate (path : list CommandDescriptor)
    (raw_args : gmap string string) : result (list frame) :=
  match path with
  | [] | [_] => Return []
  | d :: path =>
      match bind (arguments d) raw_args [] ∅, instantiate path raw_args with
      | Return shared, Return instances => Return (shared :: instances)
      | Raise e, _ | _, Raise e => Raise e
      end
  end.

(** Modelled from the spec: step 6 of section 4.7. *)
Definition normalize (r : result handler_value) : Z :=
  match r with
  | Return PyNone => success_code
  | Return (PyInt n) => n
  | Raise _ => fatal_code
  end.

(** Modelled from the spec: the handler call of step 5: the handler is
    called and what it returns goes through [try_await]. *)
Definition invoke (d : CommandDescriptor) (instances : list frame)
    (call_frame : frame) : result handler_value :=
  match handler d instances call_frame with
  | Return r => try_await r
  | Raise e => Raise e
  end.

(** Modelled from the spec: steps 1 to 3 of section 4.7: the line is parsed,
    the super-commands on its path are instantiated and the arguments of the
    leaf command are bound. *)
Definition bind_line (line : list token) (registry : list CommandDescriptor)
  : result (CommandDescriptor * list frame * frame) :=
  match parse line registry with
  | Raise e => Raise e
  | Return parsed =>
      match last (resolved_command_path parsed) with
      | None => Raise (CommandParseError "ambiguous command")
      | Some leaf =>
          match instantiate (resolved_command_path parsed)
                  (bound_tokens parsed) with
          | Raise e => Raise e
          | Return instances =>
              match bind (arguments leaf) (bound_tokens parsed)
                      (positionals parsed) ∅ with
              | Raise e => Raise e
              | Return call_frame => Return (leaf, instances, call_frame)
              end
          end
      end
  end.

(** Modelled from the spec: [execute(line, registry, context)] of
    section 4.7, steps 1 to 3, 5 and 6; the dispatcher is not among the
    source files. A validation failure and a parse failure are recovered
    here and turned into their exit codes. *)
Definition execute (line : list token) (registry : list CommandDescriptor)
  : Z :=
  match bind_line line registry with
  | Raise (ArgsValidationError _) => validation_code
  | Raise _ => parse_error_code
  | Return (leaf, instances, call_frame) =>
      normalize (invoke leaf instances call_frame)
  end.
End engine.



(** *** The commands of [tests/supercommands_test.py] *)

(** [int] and [str] as declared types, on the numerals the tests use. *)
Fixpoint digits (acc : Z) (raw : string) : option Z :=
  match raw with
  | EmptyString => Some acc
  | String c raw => Ascii.is_nat c ≫= λ d, digits (10 * acc + Z.of_nat d) raw
  end.

Definition coerce_int (raw : string) : result value :=
  match raw with
  | EmptyString => Raise (ValueError "invalid literal for int()")
  | _ => match digits 0 raw with
         | Some n => Return (VInt n)
         | None => Raise (ValueError "invalid literal for int()")
         end
  end.

Definition coerce_str (raw : string) : result value := Return (VStr raw).

Definition keyword_argument (name : string)
    (declared_type : string → result value) (default : option value)
  : ArgumentDescriptor :=
  {| arg_name := name; arg_aliases := []; is_positional := false;
     variadic := false; declared_type := declared_type; choices := [];
     arg_default := default |}.

(** [sub_command(self, arg1: str, arg2: int)] of [test_super_common_arguments]:
    a coroutine whose assertions must hold for it to return 45. *)
Definition sub_command : CommandDescriptor :=
  {| canonical_name := "sub-command"; aliases := [];
     handler := λ instances call_frame,
       Return (Awaitable
         match instances with
         | [self] =>
             match self !! "shared", call_frame !! "arg1", call_frame !! "arg2" with
             | Some (VInt shared), Some (VStr arg1), Some (VInt arg2) =>
                 if bool_decide (shared = 15%Z ∧ arg1 = "giza" ∧ arg2 = 22%Z)
                 then Return (PyInt 45)
                 else Raise OtherError
             | _, _, _ => Raise OtherError
             end
         | _ => Raise OtherError
         end);
     arguments := [keyword_argument "arg1" coerce_str None;
                   keyword_argument "arg2" coerce_int None];
     subcommands := [] |}.

(** [double(number)] of [example/commands/sample_commands.py]: one
    positional int; it prints and returns nothing. *)
Definition double : CommandDescriptor :=
  {| canonical_name := "double"; aliases := [];
     handler := λ _ _, Return (Plain PyNone);
     arguments :=
       [{| arg_name := "number"; arg_aliases := []; is_positional := true;
           variadic := false; declared_type := coerce_int; choices := [];
           arg_default := None |}];
     subcommands := [] |}.

(** [class SuperCommand], with [__init__(self, shared: int = 10)]. *)
Definition super_command : CommandDescriptor :=
  {| canonical_name := "super-command"; aliases := [];
     handler := λ _ _, Return (Plain PyNone);
     arguments := [keyword_argument "shared" coerce_int (Some (VInt 10))];
     subcommands := [sub_command] |}.






End Shell.

(** Some character of [s] is a [to_char] where [$] matches, that is, a match
    of the pattern [sub_trailing] removes. *)
Fixpoint trailing_sep (to_char : ascii) (s : string) : bool :=
  match s with
  | EmptyString => false
  | String c s' =>
      bool_decide (c = to_char) && at_dollar s' || trailing_sep to_char s'
  end.

(** ** The suggestion message *)

(** [sep.join(l)] *)
Fixpoint join (sep : string) (l : list string) : string :=
  match l with
  | [] => EmptyString
  | x :: l' =>
      match l' with
      | [] => x
      | _ => x +:+ sep +:+ join sep l'
      end
  end.

(** [suggestions_msg(suggestions)]: [None] and the empty sequence are falsy;
    [suggestions[:-1]] is the sequence without its last element and
    [suggestions[-1]] the last, which exists in the branch that reads it. *)
Definition suggestions_msg (suggestions : option (list string)) : string :=
  match suggestions with
  | None | Some [] => EmptyString
  | Some l =>
      ", Did you mean " +:+ join ", " (take (length l - 1) l) +:+ " or "
        +:+ default EmptyString (last l) +:+ "?"
  end.

(** ** Keyword arguments of a function *)

(** What [inspect.getfullargspec] returns, with values of type [V]: a field
    the function lacks is [None]. *)
Record RawArgSpec (V : Type) : Type := {
  raw_args : list string;
  raw_varargs : option string;
  raw_varkw : option string;
  raw_defaults : option (list V);
  raw_kwonlyargs : list string;
  raw_kwonlydefaults : option (gmap string V);
  raw_annotations : gmap string V;
}.
Arguments raw_args {V}.
Arguments raw_varargs {V}.
Arguments raw_varkw {V}.
Arguments raw_defaults {V}.
Arguments raw_kwonlyargs {V}.
Arguments raw_kwonlydefaults {V}.
Arguments raw_annotations {V}.

(** The named tuple [FullArgSpec]. *)
Record FullArgSpec (V : Type) : Type := {
  args : list string;
  varargs : option string;
  varkw : option string;
  defaults : list V;
  kwonlyargs : list string;
  kwonlydefaults : gmap string V;
  annotations : gmap string V;
}.
Arguments args {V}.
Arguments varargs {V}.
Arguments varkw {V}.
Arguments defaults {V}.
Arguments kwonlyargs {V}.
Arguments kwonlydefaults {V}.
Arguments annotations {V}.

(** The [TypeError] of a call that gives a parameter more than one value. *)
Inductive call_error : Type :=
  | MultipleValues (parameter : string).

Section get_kwargs_for_function.
Context {function V : Type}.
(** [inspect.getfullargspec(function)] and [function.__annotations__]. *)
Variable getfullargspec : function → RawArgSpec V.
Variable function_annotations : function → gmap string V.

(** [get_arg_spec(function)], on a Python that has [getfullargspec]: the
    annotations are updated with the function's own, and
    [set_default_value] replaces a missing or empty field by the empty list
    or dict. *)
Definition get_arg_spec (f : function) : FullArgSpec V :=
  let argspec := getfullargspec f in
  {| args := raw_args argspec;
     varargs := raw_varargs argspec;
     varkw := raw_varkw argspec;
     defaults := default [] (raw_defaults argspec);
     kwonlyargs := raw_kwonlyargs argspec;
     kwonlydefaults := default ∅ (raw_kwonlydefaults argspec);
     annotations := function_annotations f ∪ raw_annotations argspec |}.

(** The truth value of [arg_spec.varkw]: a name, or [None]. *)
Definition truthy_name (name : option string) : bool :=
  match name with
  | Some n => bool_decide (n ≠ EmptyString)
  | None => false
  end.

(** [get_kwargs_for_function(function, **kwargs)], called with the function
    by position. A keyword argument named [function] gives the first
    parameter a second value: the call raises [TypeError] and the body does
    not run. *)
Definition get_kwargs_for_function (f : function) (kwargs : gmap string V)
  : call_error + gmap string V :=
  if bool_decide (is_Some (kwargs !! "function")) then
    inl (MultipleValues "function")
  else
    let arg_spec := get_arg_spec f in
    inr (if truthy_name (varkw arg_spec) then kwargs
         else filter (λ kv, kv.1 ∈ args arg_spec) kwargs).
End get_kwargs_for_function.

(** The signature of [lookup_hosts(hosts: typing.List[str], bad_name: int)]
    of [example/commands/sample_commands.py], the annotations as text. *)
Definition lookup_hosts_spec : RawArgSpec string :=
  {| raw_args := ["hosts"; "bad_name"]; raw_varargs := None;
     raw_varkw := None; raw_defaults := None; raw_kwonlyargs := [];
     raw_kwonlydefaults := None;
     raw_annotations := {["hosts" := "typing.List[str]"; "bad_name" := "int"]} |}.

(** ** The execution context ([nubia/internal/context.py])

    The methods run one at a time here; the lock that guards the fields
    plays no part. *)

Module Context.

(** The values the context handles: what [set_verbose] is given and what an
    attribute of the parsed arguments holds. *)
Inductive pyvalue : Type :=
  | PNone
  | PBool (b : bool)
  | PInt (n : Z)
  | PStr (s : string).

(** The object [_args] holds: the dict [__init__] puts there, or an object
    with attributes, as an argument parser returns. *)
Inductive args_object : Type :=
  | ArgsDict (items : gmap string pyvalue)
  | Namespace (attributes : gmap string pyvalue).

(** The exceptions [set_verbose] lets through. *)
Inductive error : Type :=
  | TypeError
  | AttributeError.

Record Context : Type := {
  _binary_name : pyvalue;
  _testing : pyvalue;
  _registry : pyvalue;
  _args : args_object;
  _cmd : string;
  _raw_cmd : string;
}.

(** [Context.__init__] *)
Definition new : Context :=
  {| _binary_name := PNone; _testing := PNone; _registry := PNone;
     _args := ArgsDict ∅; _cmd := EmptyString; _raw_cmd := EmptyString |}.

(** The context with [_args] replaced. *)
Definition with_args (ctx : Context) (new_args : args_object) : Context :=
  {| _binary_name := _binary_name ctx; _testing := _testing ctx;
     _registry := _registry ctx; _args := new_args;
     _cmd := _cmd ctx; _raw_cmd := _raw_cmd ctx |}.

(** [set_args(args)]: the context keeps a deep copy, the same value. *)
Definition set_args (ctx : Context) (new_args : args_object) : Context :=
  with_args ctx new_args.

Section set_verbose.
(** [int(s)] on a string: the integer, or [None] for a [ValueError]. *)
Variable int_of_str : string → option Z.

(** [int(raw_value)], with the handler of [ValueError]: only a string can
    raise it, and then the value is whether the string spells [true]. *)
Definition verbosity (raw_value : pyvalue) : error + Z :=
  match raw_value with
  | PNone => inl TypeError
  | PBool b => inr (Z.b2z b)
  | PInt n => inr n
  | PStr s =>
      match int_of_str s with
      | Some n => inr n
      | None => inr (Z.b2z (bool_decide (lower s = "true")))
      end
  end.

(** [set_verbose(raw_value)]: the assignment [self._args.verbose = value]
    needs an object that takes attributes. *)
Definition set_verbose (ctx : Context) (raw_value : pyvalue)
  : error + Context :=
  match verbosity raw_value with
  | inl e => inl e
  | inr value =>
      match _args ctx with
      | ArgsDict _ => inl AttributeError
      | Namespace attributes =>
          inr (with_args ctx
                 (Namespace (<["verbose" := PInt value]> attributes)))
      end
  end.
End set_verbose.

(** [self.args.verbose], when [_args] has the attribute. *)
Definition args_verbose (ctx : Context) : option pyvalue :=
  match _args ctx with
  | Namespace attributes => attributes !! "verbose"
  | ArgsDict _ => None
  end.

End Context.

(** * Properties *)

(** ** The pattern choice validator *)

Section matches_choice_pattern_properties.
Context {choice : Type} (str : choice → string).
Variable re_compile : string → result unit.

Local Abbreviation matches := (matches_choice_pattern str re_compile).

Lemma matches_regex (p : string) (C : list choice) :
  matches ("~" +:+ p) C = valid_regex re_compile p.
Proof.
  change ("~" +:+ p) with (String "~" p).
  unfold matches_choice_pattern. cbn. by destruct p.
Qed.

Lemma matches_negated_regex (p : string) (C : list choice) :
  matches ("!~" +:+ p) C = valid_regex re_compile p.
Proof.
  change ("!~" +:+ p) with (String "!" (String "~" p)).
  unfold matches_choice_pattern. cbn. by destruct p.
Qed.

Lemma valid_regex_true (p : string) :
  valid_regex re_compile p = Return true ↔ re_compile p = Return ().
Proof.
  unfold valid_regex. destruct (re_compile p) as [[]|[]]; naive_solver.
Qed.

Lemma valid_regex_false (p : string) :
  valid_regex re_compile p = Return false ↔ re_compile p = Raise re_error.
Proof.
  unfold valid_regex. destruct (re_compile p) as [[]|[]]; naive_solver.
Qed.

Lemma matches_negation (x : string) (C : list choice) :
  startswith x "~" = false →
  matches ("!" +:+ x) C = Return (bool_decide (x ∈ str <$> C)).
Proof.
  intros Hx. change ("!" +:+ x) with (String "!" x).
  unfold matches_choice_pattern.
  replace (startswith (String "!" x) "!~") with (startswith x "~")
    by (by destruct x).
  rewrite Hx. cbn. by destruct x.
Qed.

Lemma matches_literal (v : string) (C : list choice) :
  startswith v "!~" = false → startswith v "~" = false →
  startswith v "!" = false →
  matches v C = Return (bool_decide (v ∈ str <$> C)).
Proof. intros H1 H2 H3. unfold matches_choice_pattern. by rewrite H1, H2, H3. Qed.

End matches_choice_pattern_properties.

(** C1, as amended. On an empty list of choices every input that starts with
    neither [~] nor [!~] is rejected: a literal and a negated literal are
    looked up in the empty list. (An input with a regex prefix is accepted
    on the empty list when its pattern compiles.) *)
Theorem matches_empty_choices {choice : Type} (str : choice → string)
    (re_compile : string → result unit) (v : string) :
  startswith v "~" = false → startswith v "!~" = false →
  matches_choice_pattern str re_compile v [] = Return false.
Proof.
  intros H1 H2. unfold matches_choice_pattern. rewrite H1, H2.
  by destruct (startswith v "!").
Qed.

Lemma matches_empty_choices_witness :
  startswith "!a1" "~" = false ∧ startswith "!a1" "!~" = false ∧
  matches_choice_pattern (@id string) re_compile_model "!a1" [] = Return false.
Proof.
  split; [reflexivity|]. split; [reflexivity|].
  apply (matches_empty_choices id re_compile_model "!a1"); reflexivity.
Defined.

(** C1 as stated fails: with no choices at all, the inputs [~a.*] and [!~a.*]
    are accepted, because their pattern compiles. *)
Lemma matches_empty_choices_regex_accepted :
  matches_choice_pattern (@id string) re_compile_model "~a.*" [] = Return true ∧
  matches_choice_pattern (@id string) re_compile_model "!~a.*" [] = Return true.
Proof. split; reflexivity. Qed.

(** C2. For every list of choices and every pattern [p], the inputs [~p] and
    [!~p] are accepted exactly when [re.compile(p)] returns, whatever the
    choices are; [~[invalid] and [!~[invalid] are rejected for every list. *)
Theorem matches_regex_iff_compiles {choice : Type} (str : choice → string)
    (re_compile : string → result unit) (C : list choice) (p : string) :
  (matches_choice_pattern str re_compile ("~" +:+ p) C = Return true
     ↔ re_compile p = Return ()) ∧
  (matches_choice_pattern str re_compile ("!~" +:+ p) C = Return true
     ↔ re_compile p = Return ()) ∧
  (∀ C' : list choice,
     matches_choice_pattern str re_compile ("~" +:+ p) C'
       = matches_choice_pattern str re_compile ("~" +:+ p) C ∧
     matches_choice_pattern str re_compile ("!~" +:+ p) C'
       = matches_choice_pattern str re_compile ("!~" +:+ p) C) ∧
  matches_choice_pattern str re_compile_model "~[invalid" C = Return false ∧
  matches_choice_pattern str re_compile_model "!~[invalid" C = Return false.
Proof.
  split_and!.
  - by rewrite matches_regex, valid_regex_true.
  - by rewrite matches_negated_regex, valid_regex_true.
  - intros C'. by rewrite !matches_regex, !matches_negated_regex.
  - exact (matches_regex str re_compile_model "[invalid" C).
  - exact (matches_negated_regex str re_compile_model "[invalid" C).
Qed.

(** C3. For every list of choices and every literal [x] that does not start
    with [~], the input [!x] is accepted exactly when [x] is among the
    stringified choices, and rejected otherwise. *)
Theorem matches_negated_literal {choice : Type} (str : choice → string)
    (re_compile : string → result unit) (C : list choice) (x : string) :
  startswith x "~" = false →
  (matches_choice_pattern str re_compile ("!" +:+ x) C = Return true
     ↔ x ∈ str <$> C) ∧
  (x ∉ str <$> C →
   matches_choice_pattern str re_compile ("!" +:+ x) C = Return false).
Proof.
  intros Hx. rewrite (matches_negation str re_compile x C Hx). split.
  - split; [intros [= H%bool_decide_eq_true]|intros H]; [done|].
    by rewrite bool_decide_eq_true_2.
  - intros H. by rewrite bool_decide_eq_false_2.
Qed.

Lemma matches_negated_literal_witness :
  startswith "a1" "~" = false ∧
  (matches_choice_pattern id re_compile_model "!a1" ["a"; "a1"; "b1"; "a2a1"]
     = Return true ↔ "a1" ∈ id <$> ["a"; "a1"; "b1"; "a2a1"]).
Proof.
  split; [reflexivity|].
  exact (proj1 (matches_negated_literal id re_compile_model
                  ["a"; "a1"; "b1"; "a2a1"] "a1" eq_refl)).
Defined.

(** The assertions of [tests/pattern_matching_test.py] on the model. *)
Example test_literal_and_negation_matching :
  let choices := ["a"; "a1"; "b1"; "a2a1"] in
  matches_choice_pattern id re_compile_model "a2a1" choices = Return true ∧
  matches_choice_pattern id re_compile_model "a2" choices = Return false ∧
  matches_choice_pattern id re_compile_model "!a1" choices = Return true ∧
  matches_choice_pattern id re_compile_model "!c" choices = Return false.
Proof. by vm_compute. Qed.

Example test_regex_matching :
  let choices := ["a"; "a1"; "b1"; "a2a1"] in
  matches_choice_pattern id re_compile_model "~a.*" choices = Return true ∧
  matches_choice_pattern id re_compile_model "~.*" choices = Return true ∧
  matches_choice_pattern id re_compile_model "~[invalid" choices = Return false ∧
  matches_choice_pattern id re_compile_model "~(" choices = Return false ∧
  matches_choice_pattern id re_compile_model "!~b.*" choices = Return true ∧
  matches_choice_pattern id re_compile_model "!~(" choices = Return false.
Proof. by vm_compute. Qed.

Example test_string_conversion :
  let choices := [Shell.VInt 1; Shell.VStr "2"] in
  matches_choice_pattern Shell.str_value re_compile_model "1" choices
    = Return true ∧
  matches_choice_pattern Shell.str_value re_compile_model "2" choices
    = Return true ∧
  matches_choice_pattern Shell.str_value re_compile_model "4" choices
    = Return false.
Proof. by vm_compute. Qed.

(** ** Sorting *)

Global Instance item_le_trans : Transitive item_le.
Proof.
  intros [k1 d1] [k2 d2] [k3 d3]. unfold item_le. simpl.
  intros [?|[-> H12]] [?|[-> H23]]; [left; lia..|right].
  split; [done|]. by etrans.
Qed.

Global Instance item_le_total : Total item_le.
Proof.
  intros [k1 d1] [k2 d2]. unfold item_le. simpl.
  destruct (lt_eq_lt_dec d1 d2) as [[?| ->]|?]; [by left; left| |by right; left].
  destruct (total String.le k1 k2); [left|right]; by right.
Qed.

Global Instance item_le_antisymm : AntiSymm (=) item_le.
Proof.
  intros [k1 d1] [k2 d2]. unfold item_le. simpl.
  intros [?|[-> H12]] [?|[? H21]]; try lia.
  f_equal. by apply (anti_symm String.le).
Qed.

(** A sorted permutation of a list of names is what [sorted] returns. *)
Lemma sorted_unique (l r : list string) :
  r ≡ₚ l → StronglySorted String.le r → r = sorted l.
Proof.
  intros Hp Hs. apply (StronglySorted_unique String.le); [done| |].
  - apply StronglySorted_merge_sort; apply _.
  - unfold sorted. by rewrite merge_sort_Permutation.
Qed.

Lemma sorted_items_unique (l r : list (string * nat)) :
  r ≡ₚ l → StronglySorted item_le r → r = sorted_items l.
Proof.
  intros Hp Hs. apply (StronglySorted_unique item_le); [done| |].
  - apply StronglySorted_merge_sort; apply _.
  - unfold sorted_items. by rewrite merge_sort_Permutation.
Qed.

Lemma sorted_spec (l : list string) :
  (∀ n, n ∈ sorted l ↔ n ∈ l) ∧ (NoDup l → NoDup (sorted l)) ∧
  StronglySorted String.le (sorted l).
Proof.
  unfold sorted. split_and!.
  - intros n. by rewrite merge_sort_Permutation.
  - by rewrite merge_sort_Permutation.
  - apply StronglySorted_merge_sort; apply _.
Qed.

(** A list sorted on pairs is sorted on the first components, when the
    second component is a function of the first. *)
Lemma StronglySorted_keys (f : string → nat) (l : list (string * nat)) :
  Forall (λ i, i.2 = f i.1) l → StronglySorted item_le l →
  StronglySorted (λ a b, item_le (a, f a) (b, f b)) l.*1.
Proof.
  intros Hf Hs. induction Hs as [|[k d] l Hs IH Hhd]; csimpl; [constructor|].
  apply Forall_cons in Hf as [Hd Hf]. simpl in Hd. subst d.
  constructor; [by apply IH|].
  rewrite Forall_fmap. rewrite Forall_forall in Hhd, Hf. apply Forall_forall.
  intros [k' d'] Hin. simpl. specialize (Hf _ Hin). simpl in Hf. subst d'.
  by apply Hhd.
Qed.

(** ** The suggestion engine *)

Section find_approx_properties.
Variable damerau_levenshtein_distance : string → string → nat.
Variable cmd_input : string.

Local Abbreviation step :=
  (find_approx_step damerau_levenshtein_distance cmd_input).
Local Abbreviation has_prefix n := (startswith n (lower cmd_input) = true).
Local Abbreviation distance n :=
  (damerau_levenshtein_distance (lower cmd_input) n).
(** The names the second branch of the loop records. *)
Local Abbreviation near n :=
  (startswith n (lower cmd_input) = false ∧ 1 < String.length n ∧ distance n ≤ 2).

Lemma step_prefix_suggestions (st : suggestions) (a n : string) :
  n ∈ prefix_suggestions (step st a)
  ↔ n ∈ prefix_suggestions st ∨ (n = a ∧ has_prefix a).
Proof.
  unfold find_approx_step.
  destruct (startswith a (lower cmd_input)) eqn:Ha; simpl.
  - set_solver.
  - repeat case_bool_decide; simpl; naive_solver.
Qed.

Lemma step_levenshtein_suggestions (st : suggestions) (a n : string) :
  levenshtein_suggestions (step st a) !! n =
  if decide (n = a ∧ near a) then Some (distance a)
  else levenshtein_suggestions st !! n.
Proof.
  unfold find_approx_step.
  destruct (startswith a (lower cmd_input)) eqn:Ha; simpl.
  { case_decide; naive_solver. }
  repeat case_bool_decide; simpl.
  - destruct (decide (n = a)) as [->|Hne].
    + rewrite lookup_insert_eq. case_decide; naive_solver.
    + rewrite lookup_insert_ne by done. case_decide; naive_solver.
  - case_decide; naive_solver.
  - case_decide; naive_solver lia.
Qed.

Lemma loop_prefix_suggestions (cmd_map : list string) (st : suggestions)
    (n : string) :
  n ∈ prefix_suggestions (foldl step st cmd_map)
  ↔ n ∈ prefix_suggestions st ∨ (n ∈ cmd_map ∧ has_prefix n).
Proof.
  revert st. induction cmd_map as [|a l IH]; intros st; simpl.
  - set_solver.
  - rewrite IH, step_prefix_suggestions, elem_of_cons. naive_solver.
Qed.

Lemma loop_levenshtein_suggestions (cmd_map : list string) (st : suggestions)
    (n : string) :
  levenshtein_suggestions (foldl step st cmd_map) !! n =
  if decide (n ∈ cmd_map ∧ near n) then Some (distance n)
  else levenshtein_suggestions st !! n.
Proof.
  revert st. induction cmd_map as [|a l IH]; intros st; cbn [foldl].
  - case_decide; [|done]. set_solver.
  - rewrite IH, step_levenshtein_suggestions.
    repeat case_decide; try done; set_solver.
Qed.

End find_approx_properties.

Section find_approx_branches.
Variable damerau_levenshtein_distance : string → string → nat.
Variable cmd_input : string.
Variable cmd_map : list string.

Local Abbreviation loop_end :=
  (foldl (find_approx_step damerau_levenshtein_distance cmd_input)
     {| prefix_suggestions := ∅; levenshtein_suggestions := ∅ |} cmd_map).
Local Abbreviation distance n :=
  (damerau_levenshtein_distance (lower cmd_input) n).

Lemma prefix_suggestions_end :
  prefix_suggestions loop_end =
  list_to_set (filter (λ n, startswith n (lower cmd_input) = true) cmd_map).
Proof.
  apply set_eq. intros n.
  rewrite loop_prefix_suggestions, elem_of_list_to_set, list_elem_of_filter.
  set_solver.
Qed.

Lemma levenshtein_suggestions_end (n : string) (d : nat) :
  levenshtein_suggestions loop_end !! n = Some d
  ↔ d = distance n ∧ n ∈ cmd_map ∧ startswith n (lower cmd_input) = false ∧
    1 < String.length n ∧ distance n ≤ 2.
Proof.
  rewrite loop_levenshtein_suggestions. simpl.
  case_decide; [|rewrite lookup_empty]; naive_solver.
Qed.

(** With a prefix match the function returns from its first branch. *)
Lemma find_approx_prefix_branch :
  (∃ n, n ∈ cmd_map ∧ startswith n (lower cmd_input) = true) →
  find_approx damerau_levenshtein_distance cmd_input cmd_map =
  sorted (elements (prefix_suggestions loop_end)).
Proof.
  intros (n & Hn & Hp). unfold find_approx.
  rewrite bool_decide_eq_true_2; [done|].
  intros Hempty. apply (not_elem_of_empty (C:=gset string) n).
  rewrite <-Hempty, loop_prefix_suggestions. by right.
Qed.

(** Without one it returns from the second. *)
Lemma find_approx_distance_branch :
  (∀ n, n ∈ cmd_map → startswith n (lower cmd_input) = false) →
  find_approx damerau_levenshtein_distance cmd_input cmd_map =
  (sorted_items (map_to_list (levenshtein_suggestions loop_end))).*1.
Proof.
  intros Hno. unfold find_approx.
  rewrite bool_decide_eq_false_2; [done|]. intros Hne. apply Hne.
  apply set_eq. intros n. rewrite loop_prefix_suggestions.
  split; [|set_solver]. intros [H|[Hn Hp]]; [done|].
  apply Hno in Hn. congruence.
Qed.

Lemma prefix_branch_spec :
  let r := sorted (elements (prefix_suggestions loop_end)) in
  (∀ n, n ∈ r ↔ n ∈ cmd_map ∧ startswith n (lower cmd_input) = true) ∧
  NoDup r ∧ StronglySorted String.le r.
Proof.
  destruct (sorted_spec (elements (prefix_suggestions loop_end)))
    as (Hin & Hnd & Hs).
  split_and!; [|apply Hnd, NoDup_elements|done].
  intros n. rewrite Hin, elem_of_elements, loop_prefix_suggestions. set_solver.
Qed.

Lemma distance_branch_spec :
  let r := (sorted_items (map_to_list (levenshtein_suggestions loop_end))).*1 in
  (∀ n, n ∈ r ↔ n ∈ cmd_map ∧ startswith n (lower cmd_input) = false ∧
                 1 < String.length n ∧ distance n ≤ 2) ∧
  NoDup r ∧
  StronglySorted (λ a b, item_le (a, distance a) (b, distance b)) r.
Proof.
  set (m := levenshtein_suggestions loop_end).
  assert (Hperm : sorted_items (map_to_list m) ≡ₚ map_to_list m)
    by apply merge_sort_Permutation.
  split_and!.
  - intros n. rewrite Hperm, list_elem_of_fmap. split.
    + intros ([k d] & -> & Hin). apply elem_of_map_to_list in Hin.
      apply levenshtein_suggestions_end in Hin. naive_solver.
    + intros H. exists (n, distance n). split; [done|].
      apply elem_of_map_to_list, levenshtein_suggestions_end. naive_solver.
  - rewrite Hperm. apply NoDup_fst_map_to_list.
  - apply StronglySorted_keys.
    + rewrite Hperm. apply Forall_forall. intros [k d] Hin.
      apply elem_of_map_to_list, levenshtein_suggestions_end in Hin.
      naive_solver.
    + apply StronglySorted_merge_sort; apply _.
Qed.

End find_approx_branches.

(** C6. Whenever a known name starts with the lower-cased typed string, the
    result holds exactly the known names that do, each once, in ascending
    order; a name that only is close in distance is not in it. With the
    names [a], [a1], [b1], [a2a1] and the typed string [b] the result is
    [b1], whatever the distance function. *)
Theorem find_approx_prefix_matches
    (damerau_levenshtein_distance : string → string → nat) :
  (∀ (cmd_input : string) (cmd_map : list string),
     (∃ n, n ∈ cmd_map ∧ startswith n (lower cmd_input) = true) →
     let r := find_approx damerau_levenshtein_distance cmd_input cmd_map in
     (∀ n, n ∈ r ↔ n ∈ cmd_map ∧ startswith n (lower cmd_input) = true) ∧
     NoDup r ∧ StronglySorted String.le r) ∧
  find_approx damerau_levenshtein_distance "b" ["a"; "a1"; "b1"; "a2a1"]
    = ["b1"].
Proof.
  split.
  - intros cmd_input cmd_map Hex. simpl.
    rewrite find_approx_prefix_branch by done. apply prefix_branch_spec.
  - rewrite find_approx_prefix_branch, prefix_suggestions_end.
    + by vm_compute.
    + exists "b1". split; [set_solver|done].
Qed.

Lemma find_approx_prefix_matches_witness :
  let r := find_approx damerau_levenshtein_model "DO" ["double"; "do"; "dot"; "d"] in
  (∀ n, n ∈ r ↔ n ∈ ["double"; "do"; "dot"; "d"] ∧
                 startswith n (lower "DO") = true) ∧
  NoDup r ∧ StronglySorted String.le r.
Proof.
  apply (proj1 (find_approx_prefix_matches damerau_levenshtein_model)
           "DO" ["double"; "do"; "dot"; "d"]).
  exists "do". split; [set_solver|reflexivity].
Defined.

(** C7. When no known name starts with the lower-cased typed string, the
    result holds exactly the known names longer than one character whose
    distance from the lower-cased typed string is at most 2, each once,
    ordered by distance and then by name. With the library's distance, the
    typed string [lookupp] and the names [lookup], [double], [triple] give
    [lookup]. *)
Theorem find_approx_distance_matches
    (damerau_levenshtein_distance : string → string → nat) :
  (∀ (cmd_input : string) (cmd_map : list string),
     (∀ n, n ∈ cmd_map → startswith n (lower cmd_input) = false) →
     let distance := damerau_levenshtein_distance (lower cmd_input) in
     let r := find_approx damerau_levenshtein_distance cmd_input cmd_map in
     (∀ n, n ∈ r ↔ n ∈ cmd_map ∧ 1 < String.length n ∧ distance n ≤ 2) ∧
     NoDup r ∧
     StronglySorted (λ a b, item_le (a, distance a) (b, distance b)) r) ∧
  find_approx damerau_levenshtein_model "lookupp" ["lookup"; "double"; "triple"]
    = ["lookup"].
Proof.
  split; [|by vm_compute].
  intros cmd_input cmd_map Hno. simpl.
  rewrite find_approx_distance_branch by done.
  destruct (distance_branch_spec damerau_levenshtein_distance cmd_input cmd_map)
    as (Hin & Hnd & Hs).
  split_and!; [|done..].
  intros n. rewrite Hin. naive_solver.
Qed.

Lemma find_approx_distance_matches_witness :
  let distance := damerau_levenshtein_model (lower "Tripel") in
  let r := find_approx damerau_levenshtein_model "Tripel"
             ["lookup"; "triple"; "q"; "ripe"; "tripe"] in
  (∀ n, n ∈ r ↔ n ∈ ["lookup"; "triple"; "q"; "ripe"; "tripe"] ∧
                 1 < String.length n ∧ distance n ≤ 2) ∧
  NoDup r ∧
  StronglySorted (λ a b, item_le (a, distance a) (b, distance b)) r.
Proof.
  apply (proj1 (find_approx_distance_matches damerau_levenshtein_model)
           "Tripel" ["lookup"; "triple"; "q"; "ripe"; "tripe"]).
  intros n Hn. repeat (apply elem_of_cons in Hn as [->|Hn]; [reflexivity|]).
  by apply elem_of_nil in Hn.
Defined.

(** C10. For the empty typed string and a non-empty collection of known
    names, every name is a prefix match: the first branch returns all the
    known names, each once, in ascending order, the names of one character
    included. *)
Theorem find_approx_empty_input
    (damerau_levenshtein_distance : string → string → nat)
    (cmd_map : list string) :
  cmd_map ≠ [] →
  let r := find_approx damerau_levenshtein_distance "" cmd_map in
  r = sorted (elements (list_to_set cmd_map : gset string)) ∧
  (∀ n, n ∈ r ↔ n ∈ cmd_map) ∧ NoDup r ∧ StronglySorted String.le r.
Proof.
  intros Hne. simpl.
  assert (Hall : ∀ n : string, startswith n (lower "") = true)
    by (by intros []).
  assert (Hex : ∃ n, n ∈ cmd_map ∧ startswith n (lower "") = true).
  { destruct cmd_map as [|n l]; [done|]. exists n. split; [set_solver|done]. }
  rewrite find_approx_prefix_branch by done.
  destruct (prefix_branch_spec damerau_levenshtein_distance "" cmd_map)
    as (Hin & Hnd & Hs).
  split_and!; [|intros n; rewrite Hin; naive_solver|done..].
  f_equal. f_equal. apply set_eq. intros n.
  rewrite loop_prefix_suggestions, elem_of_list_to_set. set_solver.
Qed.

Lemma find_approx_empty_input_witness :
  find_approx damerau_levenshtein_model "" ["q"; "lookup"; "?"; "double"]
    = ["?"; "double"; "lookup"; "q"].
Proof.
  rewrite (proj1 (find_approx_empty_input damerau_levenshtein_model
                    ["q"; "lookup"; "?"; "double"] ltac:(discriminate))).
  reflexivity.
Defined.

(** ** The name normaliser *)

Section transform_name_properties.
Variables from_char to_char : ascii.
Hypothesis to_char_not_from_char : to_char ≠ from_char.
Hypothesis to_char_not_space : is_space to_char = false.
Hypothesis from_char_not_space : is_space from_char = false.
Hypothesis to_char_not_backslash : to_char ≠ "\"%char.

Lemma all_chars_impl (P Q : ascii → bool) (s : string) :
  (∀ c, P c = true → Q c = true) → all_chars P s = true → all_chars Q s = true.
Proof.
  intros HPQ. induction s as [|c s IH]; simpl; [done|].
  intros [Hc Hs]%andb_true_iff. apply andb_true_iff. auto.
Qed.

Lemma lstrip_no_space (s : string) :
  all_chars (λ c, negb (is_space c)) s = true → lstrip s = s.
Proof.
  destruct s as [|c s]; simpl; [done|].
  intros [Hc _]%andb_true_iff. by destruct (is_space c).
Qed.

Lemma rstrip_no_space (s : string) :
  all_chars (λ c, negb (is_space c)) s = true → rstrip s = s.
Proof.
  induction s as [|c s IH]; simpl; [done|].
  intros [Hc Hs]%andb_true_iff. rewrite (IH Hs).
  destruct s; [|done]. by destruct (is_space c).
Qed.

Lemma strip_no_space (s : string) :
  all_chars (λ c, negb (is_space c)) s = true → strip s = s.
Proof.
  intros Hs. unfold strip. rewrite lstrip_no_space by done.
  by apply rstrip_no_space.
Qed.

Lemma input_char_no_space (c : ascii) :
  input_char from_char to_char c = true → negb (is_space c) = true.
Proof.
  unfold input_char, plain_char.
  intros [->%bool_decide_eq_true|H]%orb_true_iff.
  - by rewrite from_char_not_space.
  - by apply andb_true_iff in H as [[? _]%andb_true_iff _].
Qed.

Lemma output_char_no_space (c : ascii) :
  output_char from_char to_char c = true → negb (is_space c) = true.
Proof.
  unfold output_char, plain_char.
  intros [->%bool_decide_eq_true|H]%orb_true_iff.
  - by rewrite to_char_not_space.
  - by apply andb_true_iff in H as [[? _]%andb_true_iff _].
Qed.

Lemma output_char_not_from_char (c : ascii) :
  output_char from_char to_char c = true → c ≠ from_char.
Proof.
  unfold output_char, plain_char.
  intros [->%bool_decide_eq_true|H]%orb_true_iff; [done|].
  by apply andb_true_iff in H as [_ ?%bool_decide_eq_true].
Qed.

(** A string without [from_char] has no run to replace. *)
Lemma sub_runs_no_from_char (in_run : bool) (s : string) :
  all_chars (output_char from_char to_char) s = true →
  sub_runs from_char to_char in_run s = s.
Proof.
  revert in_run. induction s as [|c s IH]; intros in_run; simpl; [done|].
  intros [Hc Hs]%andb_true_iff. apply output_char_not_from_char in Hc.
  rewrite bool_decide_eq_false_2 by done. by rewrite IH.
Qed.

(** The runs of an input name become single, separated [to_char]s. *)
Lemma sub_runs_output (in_run : bool) (s : string) :
  all_chars (input_char from_char to_char) s = true →
  let r := sub_runs from_char to_char in_run s in
  all_chars (output_char from_char to_char) r = true ∧
  separated to_char in_run r = true.
Proof.
  revert in_run. induction s as [|c s IH]; intros in_run; simpl; [done|].
  intros [Hc Hs]%andb_true_iff. case_bool_decide as Hf.
  - destruct (IH true Hs) as [Ho Hsep]. destruct in_run; simpl; [done|].
    unfold output_char at 1. rewrite !bool_decide_eq_true_2 by done.
    by rewrite Ho, Hsep.
  - destruct (IH false Hs) as [Ho Hsep]. simpl.
    unfold input_char in Hc. rewrite bool_decide_eq_false_2 in Hc by done.
    simpl in Hc. unfold output_char at 1. rewrite Hc, orb_true_r, Ho.
    split; [done|]. rewrite bool_decide_eq_false_2; [done|].
    unfold plain_char in Hc.
    by apply andb_true_iff in Hc as [[_ ?%bool_decide_eq_true]%andb_true_iff _].
Qed.

Lemma at_dollar_output (c : ascii) (s : string) :
  output_char from_char to_char c = true → at_dollar (String c s) = false.
Proof.
  intros Hc%output_char_no_space. unfold at_dollar.
  apply bool_decide_eq_false_2. intros [?|[= -> _]]; [done|].
  by vm_compute in Hc.
Qed.

Lemma at_dollar_separated (s : string) :
  all_chars (output_char from_char to_char) s = true →
  separated to_char true s = true → s ≠ EmptyString →
  at_dollar s = false ∧ at_dollar (sub_trailing to_char s) = false.
Proof.
  destruct s as [|d s]; [done|]. intros [Hd Hs]%andb_true_iff Hsep _.
  cbn [separated] in Hsep. cbn [sub_trailing].
  destruct (bool_decide (d = to_char)); [done|].
  split; by apply at_dollar_output.
Qed.

(** On a separated output string [sub_trailing] removes a final [to_char] at
    most, and the result is stable. *)
Lemma sub_trailing_output (after_sep : bool) (s : string) :
  all_chars (output_char from_char to_char) s = true →
  separated to_char after_sep s = true →
  let s' := sub_trailing to_char s in
  all_chars (output_char from_char to_char) s' = true ∧
  separated to_char after_sep s' = true ∧
  sub_trailing to_char s' = s'.
Proof.
  revert after_sep. induction s as [|c s IH]; intros after_sep; [done|].
  intros [Hc Hs]%andb_true_iff Hsep. cbn [separated] in Hsep.
  cbn zeta. cbn [sub_trailing].
  destruct (decide (c = to_char)) as [->|Hne].
  - rewrite bool_decide_eq_true_2 in Hsep |- * by done.
    apply andb_true_iff in Hsep as [Hafter Hsep].
    destruct (IH true Hs Hsep) as (Ho & Hsep' & Hfix).
    destruct (decide (s = EmptyString)) as [->|Hs'].
    { done. }
    destruct (at_dollar_separated s Hs Hsep Hs') as [Hd Hd'].
    rewrite Hd. cbn [andb all_chars separated sub_trailing].
    rewrite bool_decide_eq_true_2 by done.
    by rewrite Hc, Ho, Hafter, Hsep', Hd', Hfix.
  - rewrite bool_decide_eq_false_2 in Hsep |- * by done.
    destruct (IH false Hs Hsep) as (Ho & Hsep' & Hfix).
    cbn [andb all_chars separated sub_trailing].
    rewrite bool_decide_eq_false_2 by done.
    by rewrite Hc, Ho, Hsep', Hfix.
Qed.

Lemma separated_sub_ends (s : string) :
  separated to_char true s = true →
  sub_ends to_char s = sub_trailing to_char s.
Proof.
  destruct s as [|c s]; simpl; [done|].
  by case_bool_decide.
Qed.

Lemma transform_name_normal (s : string) :
  normal from_char to_char s → s ≠ EmptyString →
  transform_name_with from_char to_char s = Return s.
Proof.
  intros (Ho & Hsep & Hfix) Hne. unfold transform_name_with.
  rewrite strip_no_space
    by (eapply all_chars_impl; [apply output_char_no_space|done]).
  rewrite bool_decide_eq_false_2 by done.
  rewrite sub_runs_no_from_char by done.
  rewrite separated_sub_ends, Hfix by done.
  by rewrite bool_decide_eq_false_2.
Qed.

Lemma transform_name_is_normal (name s : string) :
  all_chars (input_char from_char to_char) name = true →
  transform_name_with from_char to_char name = Return s → normal from_char to_char s.
Proof.
  intros Hin. unfold transform_name_with.
  rewrite strip_no_space
    by (eapply all_chars_impl; [apply input_char_no_space|done]).
  rewrite bool_decide_eq_false_2 by done.
  destruct (sub_runs_output false name Hin) as [Ho Hsep].
  set (r := sub_runs from_char to_char false name) in *.
  assert (Hn : normal from_char to_char (sub_ends to_char r)).
  { destruct r as [|c r]; [done|]. cbn [sub_ends].
    cbn [all_chars separated] in Ho, Hsep.
    apply andb_true_iff in Ho as [Hc Ho].
    destruct (decide (c = to_char)) as [->|Hne].
    - rewrite bool_decide_eq_true_2 in Hsep |- * by done.
      apply (sub_trailing_output true r Ho Hsep).
    - rewrite bool_decide_eq_false_2 in Hsep |- * by done.
      apply (sub_trailing_output true (String c r)); cbn [all_chars separated].
      + by rewrite Hc, Ho.
      + by rewrite bool_decide_eq_false_2. }
  case_bool_decide; [done|]. by intros [= <-].
Qed.

Lemma transform_name_with_idempotent (name s : string) :
  all_chars (input_char from_char to_char) name = true →
  transform_name_with from_char to_char name = Return s →
  transform_name_with from_char to_char s = Return s.
Proof.
  intros Hin Hs. apply transform_name_normal.
  - by eapply transform_name_is_normal.
  - unfold transform_name_with in Hs. revert Hs.
    repeat case_bool_decide; naive_solver.
Qed.

End transform_name_properties.

Lemma name_char_input_char (c : ascii) :
  name_char c = true → input_char "_" "-" c = true.
Proof. destruct c as [[] [] [] [] [] [] [] []]; by vm_compute. Qed.

Lemma transform_name_reduced (name : string) :
  transform_name name =
  if bool_decide (reduced_name name = EmptyString)
  then Raise (ValueError ("Invalid name " +:+ String dquote (String dquote "")))
  else Return (reduced_name name).
Proof.
  unfold transform_name, transform_name_with, reduced_name.
  rewrite (bool_decide_eq_false_2 ("-"%char = "\"%char)) by done.
  case_bool_decide as H; [|done]. by rewrite H.
Qed.


(** *** The function's reduction and the specification's

    On a name without a dash the two agree: after the runs are collapsed no
    two dashes are adjacent, so removing one dash at each end removes them
    all. *)











(** C8. Normalisation is idempotent on its input domain: when a name made of
    letters and the separator [_] normalises to [y], then [y] normalises to
    itself. (The empty name does not normalise.) *)
Theorem transform_name_idempotent (x y : string) :
  all_chars name_char x = true → transform_name x = Return y →
  transform_name y = transform_name x.
Proof.
  intros Hx Hy. rewrite Hy.
  apply (transform_name_with_idempotent "_" "-") with (name := x); try done.
  eapply all_chars_impl; [apply name_char_input_char|done].
Qed.

Lemma transform_name_idempotent_witness :
  transform_name "Foo-bar" = transform_name "__Foo__bar_".
Proof.
  apply (transform_name_idempotent "__Foo__bar_" "Foo-bar"); reflexivity.
Defined.




(** The normaliser outside its input domain: it removes one separator at each
    end, so a name that already holds dashes may keep some, and need not be a
    fixed point. *)
Example transform_name_dashes :
  transform_name "---" = Return "-" ∧
  transform_name "--a" = Return "-a" ∧ transform_name "-a" = Return "a".
Proof. by vm_compute. Qed.

Example transform_name_docstring :
  transform_name "_foo_bar" = Return "foo-bar" ∧
  transform_name "__special__" = Return "special" ∧
  transform_name "some__very___special" = Return "some-very-special" ∧
  transform_class_name "SuperCommand" = Return "super-command".
Proof. by vm_compute. Qed.

(** ** The command engine *)

Import Shell.

Section engine_properties.
Variable re_compile : string → result unit.
Variable damerau_levenshtein_distance : string → string → nat.
Variable parse_error_code fatal_code : Z.

Local Abbreviation descend := (Shell.descend damerau_levenshtein_distance).
Local Abbreviation parse := (Shell.parse damerau_levenshtein_distance).
Local Abbreviation bind_line :=
  (Shell.bind_line re_compile damerau_levenshtein_distance).
Local Abbreviation execute :=
  (Shell.execute re_compile damerau_levenshtein_distance parse_error_code
     fatal_code).












End engine_properties.





(** The scenarios of the integration tests on the model: a positional int
    given and omitted, and an unknown command with its suggestions. *)
Example execute_scenarios :
  execute re_compile_model damerau_levenshtein_model 1 2
    [Word "double"; Word "21"] [double] = 0%Z ∧
  execute re_compile_model damerau_levenshtein_model 1 2
    [Word "double"; Word "x"] [double] = 4%Z ∧
  parse damerau_levenshtein_model [Word "doubel"] [double; super_command]
    = Raise (UnknownCommand ["double"]).
Proof. by vm_compute. Qed.

(** * Further properties of the helpers *)

(** ** The suggestion engine *)

Lemma lower_char_idempotent (c : ascii) : lower_char (lower_char c) = lower_char c.
Proof. destruct c as [[] [] [] [] [] [] [] []]; by vm_compute. Qed.

Lemma lower_idempotent (s : string) : lower (lower s) = lower s.
Proof.
  induction s as [|c s IH]; simpl; [done|].
  by rewrite lower_char_idempotent, IH.
Qed.

(** The result depends on the typed string through its lower-cased form. *)
Lemma find_approx_lower (damerau_levenshtein_distance : string → string → nat)
    (cmd_input cmd_input' : string) (cmd_map : list string) :
  lower cmd_input = lower cmd_input' →
  find_approx damerau_levenshtein_distance cmd_input cmd_map
  = find_approx damerau_levenshtein_distance cmd_input' cmd_map.
Proof.
  intros Hl. unfold find_approx.
  assert (Hstep : find_approx_step damerau_levenshtein_distance cmd_input
                  = find_approx_step damerau_levenshtein_distance cmd_input').
  { unfold find_approx_step. by rewrite Hl. }
  by rewrite Hstep.
Qed.

(** A string is below every string it is a prefix of. *)
Lemma prefix_le (p n : string) : startswith n p = true → String.le p n.
Proof.
  unfold startswith, String.le, String.leb. revert n.
  induction p as [|c p IH]; intros n; simpl.
  - by destruct n.
  - destruct n as [|c' n]; simpl; [done|].
    destruct (ascii_dec c c') as [<-|]; [|done]. intros Hp.
    unfold Ascii.compare. rewrite N.compare_refl. by apply IH.
Qed.

(** The two ways the function returns, for every input. *)
Lemma find_approx_cases (damerau_levenshtein_distance : string → string → nat)
    (cmd_input : string) (cmd_map : list string) :
  let r := find_approx damerau_levenshtein_distance cmd_input cmd_map in
  let distance := damerau_levenshtein_distance (lower cmd_input) in
  ((∃ n, n ∈ cmd_map ∧ startswith n (lower cmd_input) = true) ∧
   (∀ n, n ∈ r ↔ n ∈ cmd_map ∧ startswith n (lower cmd_input) = true) ∧
   NoDup r ∧ StronglySorted String.le r) ∨
  ((∀ n, n ∈ cmd_map → startswith n (lower cmd_input) = false) ∧
   (∀ n, n ∈ r ↔ n ∈ cmd_map ∧ 1 < String.length n ∧ distance n ≤ 2) ∧
   NoDup r).
Proof.
  simpl.
  destruct (decide (Exists (λ n, startswith n (lower cmd_input) = true) cmd_map))
    as [Hex|Hno].
  - left. apply Exists_exists in Hex. split; [done|].
    rewrite find_approx_prefix_branch by done. apply prefix_branch_spec.
  - right. apply not_Exists_Forall in Hno; [|apply _].
    rewrite Forall_forall in Hno.
    assert (Hno' : ∀ n, n ∈ cmd_map → startswith n (lower cmd_input) = false).
    { intros n Hn. specialize (Hno n Hn). simpl in Hno.
      by destruct (startswith n (lower cmd_input)). }
    split; [done|]. rewrite find_approx_distance_branch by done.
    destruct (distance_branch_spec damerau_levenshtein_distance cmd_input
                cmd_map) as (Hin & Hnd & _).
    split; [|done]. intros n. rewrite Hin. naive_solver.
Qed.

(** X1. Every suggestion is a known name, and one that starts with the
    lower-cased input or is longer than one character and within distance 2
    of it; no name is suggested twice. *)
Theorem find_approx_sound
    (damerau_levenshtein_distance : string → string → nat)
    (cmd_input : string) (cmd_map : list string) :
  let r := find_approx damerau_levenshtein_distance cmd_input cmd_map in
  NoDup r ∧
  ∀ n, n ∈ r →
       n ∈ cmd_map ∧
       (startswith n (lower cmd_input) = true ∨
        (1 < String.length n ∧
         damerau_levenshtein_distance (lower cmd_input) n ≤ 2)).
Proof.
  destruct (find_approx_cases damerau_levenshtein_distance cmd_input cmd_map)
    as [(_ & Hin & Hnd & _)|(_ & Hin & Hnd)]; simpl in *.
  - split; [done|]. intros n Hn%Hin. naive_solver.
  - split; [done|]. intros n Hn%Hin. naive_solver.
Qed.

Lemma find_approx_sound_witness :
  "lookup" ∈ ["lookup"; "double"; "triple"] ∧
  (startswith "lookup" (lower "lookupp") = true ∨
   (1 < String.length "lookup" ∧
    damerau_levenshtein_model (lower "lookupp") "lookup" ≤ 2)).
Proof.
  apply (proj2 (find_approx_sound damerau_levenshtein_model "lookupp"
                  ["lookup"; "double"; "triple"]) "lookup").
  vm_compute. left.
Defined.

(** X2. The result does not depend on the order in which the known names are
    iterated, nor on how often one occurs: two collections with the same
    members give the same suggestions. *)
Theorem find_approx_order_independent
    (damerau_levenshtein_distance : string → string → nat)
    (cmd_input : string) (cmd_map cmd_map' : list string) :
  (∀ n, n ∈ cmd_map ↔ n ∈ cmd_map') →
  find_approx damerau_levenshtein_distance cmd_input cmd_map
  = find_approx damerau_levenshtein_distance cmd_input cmd_map'.
Proof.
  intros Hsame. unfold find_approx.
  set (st := foldl _ _ cmd_map). set (st' := foldl _ _ cmd_map').
  assert (Hp : prefix_suggestions st = prefix_suggestions st').
  { apply set_eq. intros n. unfold st, st'.
    rewrite !loop_prefix_suggestions. by rewrite Hsame. }
  assert (Hl : levenshtein_suggestions st = levenshtein_suggestions st').
  { apply map_eq. intros n. unfold st, st'.
    rewrite !loop_levenshtein_suggestions.
    repeat case_decide; try done; naive_solver. }
  by rewrite Hp, Hl.
Qed.

Lemma find_approx_order_independent_witness :
  find_approx damerau_levenshtein_model "lok" ["look"; "lookup"; "lock"]
  = find_approx damerau_levenshtein_model "lok"
      ["lock"; "lookup"; "look"; "lock"].
Proof.
  apply (find_approx_order_independent damerau_levenshtein_model "lok").
  intros n. set_solver.
Defined.

(** X3. The typed string is compared without regard to its case: its
    lower-cased form gives the same suggestions. *)
Theorem find_approx_case_insensitive
    (damerau_levenshtein_distance : string → string → nat)
    (cmd_input : string) (cmd_map : list string) :
  find_approx damerau_levenshtein_distance (lower cmd_input) cmd_map
  = find_approx damerau_levenshtein_distance cmd_input cmd_map.
Proof. apply find_approx_lower, lower_idempotent. Qed.

(** X4. Nothing is suggested exactly when no known name starts with the
    lower-cased input and none longer than one character is within
    distance 2 of it. *)
Theorem find_approx_nothing
    (damerau_levenshtein_distance : string → string → nat)
    (cmd_input : string) (cmd_map : list string) :
  find_approx damerau_levenshtein_distance cmd_input cmd_map = []
  ↔ ∀ n, n ∈ cmd_map →
         startswith n (lower cmd_input) = false ∧
         ¬ (1 < String.length n ∧
            damerau_levenshtein_distance (lower cmd_input) n ≤ 2).
Proof.
  destruct (find_approx_cases damerau_levenshtein_distance cmd_input cmd_map)
    as [((m & Hm & Hpm) & Hin & _)|(Hno & Hin & _)]; simpl in *.
  - split.
    + intros Hnil. assert (Hmr : m ∈ @nil string); [|by apply elem_of_nil in Hmr].
      rewrite <-Hnil. by apply Hin.
    + intros Hall. destruct (Hall m Hm) as [Hf _]. congruence.
  - split.
    + intros Hnil n Hn. split; [by apply Hno|]. intros Hnear.
      assert (Hnr : n ∈ @nil string); [|by apply elem_of_nil in Hnr].
      rewrite <-Hnil. apply Hin. naive_solver.
    + intros Hall. apply elem_of_nil_inv. intros n Hn%Hin.
      destruct Hn as (Hn & Hnear). by destruct (Hall n Hn) as [_ []].
Qed.

(** X5. When the lower-cased input is itself a known name, it is the first
    suggestion. *)
Theorem find_approx_exact_first
    (damerau_levenshtein_distance : string → string → nat)
    (cmd_input : string) (cmd_map : list string) :
  lower cmd_input ∈ cmd_map →
  head (find_approx damerau_levenshtein_distance cmd_input cmd_map)
  = Some (lower cmd_input).
Proof.
  intros Hknown.
  assert (Hself : startswith (lower cmd_input) (lower cmd_input) = true).
  { unfold startswith. generalize (lower cmd_input). intros s.
    induction s as [|c s IH]; simpl; [done|]. by destruct (ascii_dec c c). }
  destruct (find_approx_cases damerau_levenshtein_distance cmd_input cmd_map)
    as [(_ & Hin & _ & Hs)|(Hno & _)]; simpl in *.
  - destruct (find_approx _ _ _) as [|h r] eqn:Hr.
    + assert (Hx : lower cmd_input ∈ @nil string) by (by apply Hin).
      by apply elem_of_nil in Hx.
    + simpl. f_equal. apply (anti_symm String.le).
      * apply StronglySorted_inv in Hs as [_ Hall].
        assert (Hx : lower cmd_input ∈ h :: r) by (by apply Hin).
        apply elem_of_cons in Hx as [->|Hx]; [done|].
        rewrite Forall_forall in Hall. by apply Hall.
      * apply prefix_le. apply Hin. left.
  - specialize (Hno _ Hknown). congruence.
Qed.

Lemma find_approx_exact_first_witness :
  head (find_approx damerau_levenshtein_model "Do" ["double"; "dot"; "do"])
  = Some "do".
Proof.
  apply (find_approx_exact_first damerau_levenshtein_model "Do").
  set_solver.
Defined.

(** ** The suggestion message *)

(** X6. The message is empty exactly when there is nothing to suggest; for a
    sequence that ends with [x] it lists the elements before [x] separated
    by commas, then [or x?], so that a single suggestion leaves the list
    before [or] empty. *)
Theorem suggestions_msg_shape :
  (∀ suggestions : option (list string),
     suggestions_msg suggestions = EmptyString
     ↔ suggestions = None ∨ suggestions = Some []) ∧
  (∀ (l : list string) (x : string),
     suggestions_msg (Some (l ++ [x]))
     = ", Did you mean " +:+ join ", " l +:+ " or " +:+ x +:+ "?") ∧
  (∀ x : string,
     suggestions_msg (Some [x]) = ", Did you mean  or " +:+ x +:+ "?").
Proof.
  assert (Hshape : ∀ (l : list string) (x : string),
    suggestions_msg (Some (l ++ [x]))
    = ", Did you mean " +:+ join ", " l +:+ " or " +:+ x +:+ "?").
  { intros l x. unfold suggestions_msg.
    destruct (l ++ [x]) as [|y k] eqn:Hl; [by destruct l|]. rewrite <-Hl.
    rewrite last_snoc, length_app. simpl.
    replace (length l + 1 - 1) with (length l) by lia.
    by rewrite take_app_length. }
  split_and!; [|done|intros x; apply (Hshape [] x)].
  intros [[|x l]|]; split; naive_solver.
Qed.

(** ** The pattern choice validator *)

(** X7. The validator reads the choices only through the set of their
    string forms: two lists with the same string forms give the same answer,
    and adding choices never turns an accepted value into a rejected one. *)
Theorem matches_choice_pattern_choice_set {choice : Type}
    (str : choice → string) (re_compile : string → result unit)
    (value : string) (choices choices' : list choice) :
  ((∀ s, s ∈ str <$> choices ↔ s ∈ str <$> choices') →
   matches_choice_pattern str re_compile value choices
   = matches_choice_pattern str re_compile value choices') ∧
  (matches_choice_pattern str re_compile value choices = Return true →
   matches_choice_pattern str re_compile value (choices ++ choices')
   = Return true).
Proof.
  unfold matches_choice_pattern. split.
  - intros Hsame.
    destruct (startswith value "!~"); [done|].
    destruct (startswith value "~"); [done|].
    destruct (startswith value "!"); f_equal; apply bool_decide_ext, Hsame.
  - destruct (startswith value "!~"); [done|].
    destruct (startswith value "~"); [done|].
    rewrite fmap_app.
    destruct (startswith value "!"); intros [= H%bool_decide_eq_true];
      f_equal; apply bool_decide_eq_true; set_solver.
Qed.

Lemma matches_choice_pattern_choice_set_witness :
  matches_choice_pattern Shell.str_value re_compile_model "!12"
    [Shell.VInt 12; Shell.VStr "13"]
  = matches_choice_pattern Shell.str_value re_compile_model "!12"
      [Shell.VStr "13"; Shell.VStr "12"; Shell.VInt 13].
Proof.
  apply (proj1 (matches_choice_pattern_choice_set Shell.str_value
                  re_compile_model "!12" _ _)).
  intros s. cbn. set_solver.
Defined.

(** X8. The validator raises only what [re.compile] raises on the pattern of
    a [~] or [!~] input, and never [re.error]; on any other input it
    returns. *)
Theorem matches_choice_pattern_raises {choice : Type}
    (str : choice → string) (re_compile : string → result unit)
    (value : string) (choices : list choice) (e : exn) :
  matches_choice_pattern str re_compile value choices = Raise e →
  e ≠ re_error ∧
  ((startswith value "!~" = true ∧ re_compile (slice_from 2 value) = Raise e) ∨
   (startswith value "!~" = false ∧ startswith value "~" = true ∧
    re_compile (slice_from 1 value) = Raise e)).
Proof.
  unfold matches_choice_pattern, valid_regex.
  destruct (startswith value "!~").
  { destruct (re_compile (slice_from 2 value)) as [|[]]; naive_solver. }
  destruct (startswith value "~").
  { destruct (re_compile (slice_from 1 value)) as [|[]]; naive_solver. }
  by destruct (startswith value "!").
Qed.

Lemma matches_choice_pattern_raises_witness :
  matches_choice_pattern (@id string) (λ _, Raise OtherError) "~a" []
    = Raise OtherError ∧
  OtherError ≠ re_error.
Proof.
  split; [reflexivity|].
  apply (matches_choice_pattern_raises (@id string) (λ _, Raise OtherError)
           "~a" [] OtherError).
  reflexivity.
Defined.

(** X9. Typing a listed choice selects it when its string form starts with
    neither [!] nor [~]. A listed choice whose string form is [!x] (with [x]
    not starting with [~]) is accepted only if [x] is listed too: the [!] is
    read as the negation prefix. *)
Theorem matches_choice_pattern_listed {choice : Type}
    (str : choice → string) (re_compile : string → result unit)
    (choices : list choice) :
  (∀ c, c ∈ choices →
        startswith (str c) "!" = false → startswith (str c) "~" = false →
        matches_choice_pattern str re_compile (str c) choices = Return true) ∧
  (∀ c x, c ∈ choices → str c = "!" +:+ x → startswith x "~" = false →
          x ∉ str <$> choices →
          matches_choice_pattern str re_compile (str c) choices = Return false).
Proof.
  split.
  - intros c Hc H1 H2. rewrite matches_literal; [| |done..].
    + f_equal. apply bool_decide_eq_true. by apply list_elem_of_fmap_2.
    + revert H1. unfold startswith. destruct (str c) as [|a s]; [done|].
      cbn -[ascii_dec]. destruct (ascii_dec "!" a); [|done]. by destruct s.
  - intros c x Hc -> Hx Hnot. rewrite matches_negation by done.
    by rewrite bool_decide_eq_false_2.
Qed.

Lemma matches_choice_pattern_listed_witness :
  matches_choice_pattern id re_compile_model "!a" ["!a"; "b"] = Return false.
Proof.
  apply (proj2 (matches_choice_pattern_listed id re_compile_model ["!a"; "b"])
           "!a" "a"); [set_solver|reflexivity|reflexivity|set_solver].
Defined.

(** ** The name normaliser *)

Lemma app_cons (c : ascii) (s t : string) :
  String c s +:+ t = String c (s +:+ t).
Proof. reflexivity. Qed.

Lemma all_chars_sub_trailing (P : ascii → bool) (to_char : ascii) (s : string) :
  all_chars P s = true → all_chars P (sub_trailing to_char s) = true.
Proof.
  induction s as [|c s IH]; simpl; [done|].
  intros [Hc Hs]%andb_true_iff.
  destruct (bool_decide (c = to_char) && at_dollar s); [by apply IH|].
  simpl. by rewrite Hc, IH.
Qed.

Lemma all_chars_sub_ends (P : ascii → bool) (to_char : ascii) (s : string) :
  all_chars P s = true → all_chars P (sub_ends to_char s) = true.
Proof.
  destruct s as [|c s]; [done|]. intros Hs. cbn [sub_ends].
  case_bool_decide; [|by apply all_chars_sub_trailing].
  apply all_chars_sub_trailing. simpl in Hs.
  by apply andb_true_iff in Hs as [_ ?].
Qed.

Lemma sub_runs_no_from (from_char to_char : ascii) (in_run : bool) (s : string) :
  to_char ≠ from_char →
  all_chars (λ c, bool_decide (c ≠ from_char))
    (sub_runs from_char to_char in_run s) = true.
Proof.
  intros Hne. revert in_run.
  induction s as [|c s IH]; intros in_run; simpl; [done|].
  case_bool_decide as Hc.
  - destruct in_run; simpl; [done|]. by rewrite bool_decide_eq_true_2, IH.
  - simpl. by rewrite bool_decide_eq_true_2, IH.
Qed.

(** X10. Whatever the name, a normalised name is not empty and holds no
    underscore. *)
Theorem transform_name_result (name y : string) :
  transform_name name = Return y →
  y ≠ EmptyString ∧ all_chars (λ c, bool_decide (c ≠ "_"%char)) y = true.
Proof.
  rewrite transform_name_reduced. case_bool_decide as Hy; [done|].
  intros [= <-]. split; [done|]. unfold reduced_name.
  by apply all_chars_sub_ends, sub_runs_no_from.
Qed.

Lemma transform_name_result_witness :
  all_chars (λ c, bool_decide (c ≠ "_"%char)) "a- b" = true.
Proof.
  apply (transform_name_result "_a_ b__" "a- b"). reflexivity.
Defined.

Lemma lstrip_spaces (p s : string) :
  all_chars is_space p = true → lstrip (p +:+ s) = lstrip s.
Proof.
  induction p as [|c p IH]; [done|]. rewrite app_cons. simpl.
  intros [-> Hp]%andb_true_iff. by apply IH.
Qed.

Lemma rstrip_spaces (p : string) :
  all_chars is_space p = true → rstrip p = EmptyString.
Proof.
  induction p as [|c p IH]; simpl; [done|].
  intros [-> Hp]%andb_true_iff. by rewrite IH.
Qed.

Lemma rstrip_app_spaces (s p : string) :
  all_chars is_space p = true → rstrip (s +:+ p) = rstrip s.
Proof.
  intros Hp. induction s as [|c s IH].
  - by rewrite rstrip_spaces.
  - rewrite app_cons. simpl. by rewrite IH.
Qed.

Lemma lstrip_app (s p : string) :
  lstrip s ≠ EmptyString → lstrip (s +:+ p) = lstrip s +:+ p.
Proof.
  induction s as [|c s IH]; [done|]. rewrite app_cons. simpl.
  destruct (is_space c); [apply IH|done].
Qed.

Lemma lstrip_all_spaces (s : string) :
  lstrip s = EmptyString → all_chars is_space s = true.
Proof.
  induction s as [|c s IH]; simpl; [done|].
  destruct (is_space c); [apply IH|done].
Qed.

Lemma strip_padding (p1 p2 s : string) :
  all_chars is_space p1 = true → all_chars is_space p2 = true →
  strip (p1 +:+ s +:+ p2) = strip s.
Proof.
  intros H1 H2. unfold strip. rewrite lstrip_spaces by done.
  destruct (decide (lstrip s = EmptyString)) as [Hs|Hs].
  - rewrite Hs. apply lstrip_all_spaces in Hs.
    replace (lstrip (s +:+ p2)) with (lstrip p2)
      by (symmetry; by apply lstrip_spaces).
    assert (Hp : all_chars is_space (lstrip p2) = true).
    { clear -H2. induction p2 as [|c p IH]; simpl in *; [done|].
      apply andb_true_iff in H2 as [-> Hp]. by apply IH. }
    by rewrite rstrip_spaces.
  - rewrite lstrip_app by done. by apply rstrip_app_spaces.
Qed.

(** X11. Whitespace around a name never matters: padding the name with
    whitespace on either side changes neither the normalised name nor the
    failure, for any pair of separators. *)
Theorem transform_name_padding (from_char to_char : ascii)
    (p1 p2 name : string) :
  all_chars is_space p1 = true → all_chars is_space p2 = true →
  transform_name_with from_char to_char (p1 +:+ name +:+ p2)
  = transform_name_with from_char to_char name.
Proof.
  intros H1 H2. unfold transform_name_with. by rewrite strip_padding.
Qed.

Lemma transform_name_padding_witness :
  transform_name_with "_" "-" ("  " +:+ "_foo_bar" +:+ " ")
  = transform_name_with "_" "-" "_foo_bar".
Proof. apply transform_name_padding; reflexivity. Defined.

(** ** The class-name normaliser *)

Lemma lower_char_not_upper (c : ascii) : is_upper (lower_char c) = false.
Proof. destruct c as [[] [] [] [] [] [] [] []]; by vm_compute. Qed.

Lemma dash_capitals_not_upper (s : string) (res_empty : bool) :
  all_chars (λ c, negb (is_upper c)) (dash_capitals s res_empty) = true.
Proof.
  revert res_empty. induction s as [|c s IH]; intros res_empty; simpl; [done|].
  destruct (bool_decide (65 ≤ nat_of_ascii c ≤ 90) && negb res_empty); simpl;
    by rewrite lower_char_not_upper, IH.
Qed.

Lemma not_upper_no_capital (c : ascii) :
  negb (is_upper c) = true →
  negb (bool_decide (65 ≤ nat_of_ascii c ≤ 90)) = true.
Proof. destruct c as [[] [] [] [] [] [] [] []]; by vm_compute. Qed.

Lemma dash_capitals_no_capital (s : string) (res_empty : bool) :
  all_chars (λ c, negb (bool_decide (65 ≤ nat_of_ascii c ≤ 90))) s = true →
  dash_capitals s res_empty = lower s.
Proof.
  revert res_empty. induction s as [|c s IH]; intros res_empty; simpl; [done|].
  intros [Hc Hs]%andb_true_iff. apply negb_true_iff in Hc. rewrite Hc. simpl.
  by rewrite IH.
Qed.

(** X12. A normalised class name holds none of the capitals A to Z, the
    letters before which the loop inserts a dash: each is lower-cased, and
    lower-casing another character never gives one. The class-name
    normaliser fails exactly when the name normaliser does, with the same
    exception. *)
Theorem transform_class_name_lower (name : string) :
  (∀ y, transform_class_name name = Return y →
        all_chars (λ c, negb (bool_decide (65 ≤ nat_of_ascii c ≤ 90))) y
        = true) ∧
  (∀ e, transform_class_name name = Raise e ↔ transform_name name = Raise e).
Proof.
  unfold transform_class_name. destruct (transform_name name) as [s|e'].
  - split; [|done]. intros y [= <-].
    eapply all_chars_impl; [apply not_upper_no_capital|].
    apply dash_capitals_not_upper.
  - done.
Qed.

Lemma transform_class_name_lower_witness :
  all_chars (λ c, negb (bool_decide (65 ≤ nat_of_ascii c ≤ 90)))
    "super-command" = true.
Proof.
  apply (proj1 (transform_class_name_lower "SuperCommand") "super-command").
  reflexivity.
Defined.



Lemma sub_trailing_length (to_char : ascii) (s : string) :
  String.length (sub_trailing to_char s) ≤ String.length s.
Proof.
  induction s as [|c s IH]; simpl; [done|].
  destruct (bool_decide (c = to_char) && at_dollar s); simpl; lia.
Qed.

(** The strings [sub_trailing] leaves alone are those without a match. *)
Lemma sub_trailing_fixed (to_char : ascii) (s : string) :
  sub_trailing to_char s = s ↔ trailing_sep to_char s = false.
Proof.
  induction s as [|c s IH]; simpl; [done|].
  destruct (bool_decide (c = to_char) && at_dollar s) eqn:Hm; simpl.
  - split; [|done]. intros Heq.
    pose proof (sub_trailing_length to_char s) as Hlen.
    rewrite Heq in Hlen. simpl in Hlen. lia.
  - rewrite <-IH. split; [by intros [= ->]|by intros ->].
Qed.

Lemma at_dollar_no_space (c : ascii) (s : string) :
  is_space c = false → at_dollar (String c s) = false.
Proof.
  intros Hc. apply bool_decide_eq_false_2. intros [?|[= -> _]]; [done|].
  by vm_compute in Hc.
Qed.

Lemma lower_char_output (c : ascii) :
  output_char "_" "-" c = true →
  output_char "_" "-" (lower_char c) = true ∧
  is_space (lower_char c) = false ∧
  (lower_char c = "-"%char → c = "-"%char).
Proof. destruct c as [[] [] [] [] [] [] [] []]; by vm_compute. Qed.

Lemma dash_capitals_output (s : string) (res_empty : bool) :
  all_chars (output_char "_" "-") s = true →
  all_chars (output_char "_" "-") (dash_capitals s res_empty) = true.
Proof.
  revert res_empty. induction s as [|c s IH]; intros res_empty; simpl; [done|].
  intros [Hc Hs]%andb_true_iff.
  destruct (lower_char_output c Hc) as (Hl & _ & _).
  destruct (bool_decide (65 ≤ nat_of_ascii c ≤ 90) && negb res_empty); simpl;
    by rewrite Hl, IH.
Qed.

Lemma dash_capitals_at_dollar (s : string) (res_empty : bool) :
  all_chars (output_char "_" "-") s = true →
  at_dollar (dash_capitals s res_empty) = true → s = EmptyString.
Proof.
  destruct s as [|c s]; [done|]. simpl. intros [Hc _]%andb_true_iff.
  destruct (lower_char_output c Hc) as (_ & Hsp & _).
  destruct (bool_decide (65 ≤ nat_of_ascii c ≤ 90) && negb res_empty).
  - by rewrite at_dollar_no_space.
  - by rewrite at_dollar_no_space.
Qed.

Lemma dash_capitals_trailing_sep (s : string) (res_empty : bool) :
  all_chars (output_char "_" "-") s = true →
  trailing_sep "-" s = false →
  trailing_sep "-" (dash_capitals s res_empty) = false.
Proof.
  revert res_empty. induction s as [|c s IH]; intros res_empty; [done|].
  cbn [all_chars trailing_sep dash_capitals].
  intros [Hc Hs]%andb_true_iff [Hm Ht]%orb_false_iff.
  destruct (lower_char_output c Hc) as (_ & Hsp & Hdash).
  assert (Hrest : trailing_sep "-" (String (lower_char c) (dash_capitals s false))
                  = false).
  { cbn [trailing_sep]. rewrite (IH false Hs Ht), orb_false_r.
    apply andb_false_iff.
    destruct (decide (lower_char c = "-"%char)) as [Hl|Hl];
      [|left; by apply bool_decide_eq_false_2].
    right. apply Hdash in Hl. subst c.
    destruct (at_dollar (dash_capitals s false)) eqn:Hd; [|done].
    apply dash_capitals_at_dollar in Hd; [|done]. by subst s. }
  destruct (bool_decide (65 ≤ nat_of_ascii c ≤ 90) && negb res_empty); [|done].
  change (trailing_sep "-" (String "-" ?r))
    with (bool_decide ("-"%char = "-"%char) && at_dollar r || trailing_sep "-" r).
  rewrite Hrest, orb_false_r.
  by rewrite at_dollar_no_space, andb_false_r.
Qed.

(** A name of output characters without a dash at either end is a fixed
    point of the name normaliser, whatever lies between. *)
Lemma transform_name_fixed (y : string) :
  all_chars (output_char "_" "-") y = true →
  startswith y "-" = false → trailing_sep "-" y = false → y ≠ EmptyString →
  transform_name y = Return y.
Proof.
  intros Ho Hstart Htrail Hne. unfold transform_name, transform_name_with.
  rewrite strip_no_space
    by (eapply all_chars_impl; [by apply (output_char_no_space "_" "-")|done]).
  rewrite bool_decide_eq_false_2 by done.
  rewrite (sub_runs_no_from_char "_" "-" ltac:(done)) by done.
  assert (Hends : sub_ends "-" y = y).
  { destruct y as [|c y]; [done|]. cbn [sub_ends].
    assert (Hc : c ≠ "-"%char).
    { intros ->. unfold startswith in Hstart. simpl in Hstart. by destruct y. }
    rewrite bool_decide_eq_false_2 by done. by apply sub_trailing_fixed. }
  rewrite Hends. by rewrite bool_decide_eq_false_2.
Qed.

Lemma lower_not_upper (s : string) :
  all_chars (λ c, negb (is_upper c)) s = true → lower s = s.
Proof.
  induction s as [|c s IH]; simpl; [done|].
  intros [Hc Hs]%andb_true_iff. unfold lower_char.
  apply negb_true_iff in Hc. by rewrite Hc, IH.
Qed.

(** X14. Class-name normalisation is idempotent on names of letters and
    underscores: a normalised class name normalises to itself. *)
Theorem transform_class_name_idempotent (x y : string) :
  all_chars name_char x = true → transform_class_name x = Return y →
  transform_class_name y = Return y.
Proof.
  intros Hx. unfold transform_class_name at 1.
  destruct (transform_name x) as [s|] eqn:Hs; [|done]. intros [= <-].
  assert (Hin : all_chars (input_char "_" "-") x = true)
    by (eapply all_chars_impl; [apply name_char_input_char|done]).
  destruct (transform_name_is_normal "_" "-" ltac:(done) ltac:(done)
              ltac:(done) x s Hin Hs) as (Ho & Hsep & Hfix).
  assert (Hne : s ≠ EmptyString).
  { rewrite transform_name_reduced in Hs. revert Hs.
    case_bool_decide; [done|]. by intros [= <-]. }
  set (y := dash_capitals s true).
  assert (Hy : transform_name y = Return y).
  { apply transform_name_fixed.
    - by apply dash_capitals_output.
    - destruct s as [|c s]; [done|]. unfold y. cbn [dash_capitals].
      rewrite andb_false_r. unfold startswith. cbn -[ascii_dec].
      apply andb_true_iff in Ho as [Hc _].
      destruct (lower_char_output c Hc) as (_ & _ & Hdash).
      destruct (ascii_dec "-" (lower_char c)) as [Hl|]; [|done].
      symmetry in Hl. apply Hdash in Hl. subst c. simpl in Hsep. done.
    - apply dash_capitals_trailing_sep; [done|]. by apply sub_trailing_fixed.
    - destruct s; [done|]. unfold y. simpl. by case_match. }
  unfold transform_class_name. rewrite Hy. f_equal.
  rewrite dash_capitals_no_capital.
  - apply lower_not_upper, dash_capitals_not_upper.
  - eapply all_chars_impl; [apply not_upper_no_capital|].
    apply dash_capitals_not_upper.
Qed.

Lemma transform_class_name_idempotent_witness :
  transform_class_name "super--command" = Return "super--command".
Proof.
  apply (transform_class_name_idempotent "Super_Command" "super--command");
    reflexivity.
Defined.

(** ** Keyword arguments of a function *)

(** X15. The keyword arguments kept for a function. A keyword named
    [function] makes the call raise. Otherwise the call returns: with a [**]
    parameter all the keyword arguments; without one, exactly those named by
    a positional parameter, each with its value, so that an argument for a
    keyword-only parameter is dropped. Nothing is renamed or added, and
    filtering the result again returns it unchanged. *)
Theorem get_kwargs_for_function_spec {function V : Type}
    (getfullargspec : function → RawArgSpec V)
    (function_annotations : function → gmap string V)
    (f : function) (kwargs : gmap string V) :
  let call := get_kwargs_for_function getfullargspec function_annotations f in
  (is_Some (kwargs !! "function") →
   call kwargs = inl (MultipleValues "function")) ∧
  (kwargs !! "function" = None →
   ∃ kept,
     call kwargs = inr kept ∧
     (truthy_name (raw_varkw (getfullargspec f)) = true → kept = kwargs) ∧
     (truthy_name (raw_varkw (getfullargspec f)) = false →
      ∀ k, kept !! k =
           if bool_decide (k ∈ raw_args (getfullargspec f)) then kwargs !! k
           else None) ∧
     kept ⊆ kwargs ∧
     call kept = inr kept).
Proof.
  cbn zeta. unfold get_kwargs_for_function. split.
  - intros Hf. by rewrite bool_decide_eq_true_2.
  - intros Hf. rewrite bool_decide_eq_false_2 by (rewrite Hf; by inv 1).
    eexists. split; [done|]. simpl.
    destruct (truthy_name (raw_varkw (getfullargspec f))).
    + split_and!; [done..|].
      by rewrite bool_decide_eq_false_2 by (rewrite Hf; by inv 1).
    + split_and!; [done| |apply map_filter_subseteq|].
      * intros _ k. rewrite map_lookup_filter.
        destruct (kwargs !! k) as [v|] eqn:Hk; simpl; [|by case_bool_decide].
        case_bool_decide;
          [by rewrite option_guard_True|by rewrite option_guard_False].
      * rewrite bool_decide_eq_false_2.
        -- f_equal. apply map_filter_id. intros k v Hkv.
           by apply map_lookup_filter_Some in Hkv as [_ ?].
        -- rewrite map_lookup_filter, Hf. by inv 1.
Qed.

Lemma get_kwargs_for_function_spec_witness :
  ∃ kept,
    get_kwargs_for_function (λ _ : unit, lookup_hosts_spec) (λ _, ∅) ()
      {["hosts" := "localhost"; "verbose" := "1"]} = inr kept ∧
    kept !! "verbose" = None ∧ kept !! "hosts" = Some "localhost".
Proof.
  destruct (proj2 (get_kwargs_for_function_spec
                     (λ _ : unit, lookup_hosts_spec) (λ _, ∅) ()
                     {["hosts" := "localhost"; "verbose" := "1"]})
              ltac:(by vm_compute))
    as (kept & Hcall & _ & Hlookup & _).
  exists kept. split; [exact Hcall|].
  split; [exact (Hlookup eq_refl "verbose")|exact (Hlookup eq_refl "hosts")].
Defined.

(** ** The execution context *)

(** X16. [set_verbose] on a string that is no integer sets the verbosity to
    1 when the string spells [true] in any case and to 0 otherwise; it
    changes the [verbose] attribute and nothing else. *)
Theorem set_verbose_string (int_of_str : string → option Z)
    (ctx : Context.Context) (attributes : gmap string Context.pyvalue)
    (s : string) :
  Context._args ctx = Context.Namespace attributes →
  int_of_str s = None →
  ∃ ctx',
    Context.set_verbose int_of_str ctx (Context.PStr s) = inr ctx' ∧
    Context.args_verbose ctx'
      = Some (Context.PInt (if bool_decide (lower s = "true") then 1 else 0)) ∧
    Context._args ctx'
      = Context.Namespace
          (<["verbose" :=
               Context.PInt (if bool_decide (lower s = "true") then 1 else 0)]>
             attributes) ∧
    Context._binary_name ctx' = Context._binary_name ctx ∧
    Context._testing ctx' = Context._testing ctx ∧
    Context._registry ctx' = Context._registry ctx ∧
    Context._cmd ctx' = Context._cmd ctx ∧
    Context._raw_cmd ctx' = Context._raw_cmd ctx.
Proof.
  intros Hargs Hint. eexists. unfold Context.set_verbose, Context.verbosity.
  rewrite Hint, Hargs. split; [done|].
  unfold Context.args_verbose. simpl. rewrite lookup_insert_eq.
  by destruct (bool_decide (lower s = "true")).
Qed.

Lemma set_verbose_string_witness :
  let ctx := Context.set_args Context.new (Context.Namespace ∅) in
  ∃ ctx',
    Context.set_verbose (λ _, None) ctx (Context.PStr "True") = inr ctx' ∧
    Context.args_verbose ctx' = Some (Context.PInt 1).
Proof.
  destruct (set_verbose_string (λ _, None)
              (Context.set_args Context.new (Context.Namespace ∅)) ∅ "True"
              eq_refl eq_refl) as (ctx' & H1 & H2 & _).
  exists ctx'. split; [exact H1|exact H2].
Defined.

(** X17. Before [set_args] has stored an object that takes attributes,
    [set_verbose] never succeeds: on a context as [__init__] leaves it, and
    on any context whose arguments are a dict, it raises for every value
    (a [TypeError] for [None], an [AttributeError] for a boolean, an integer
    or a string). *)
Theorem set_verbose_needs_namespace (int_of_str : string → option Z)
    (ctx : Context.Context) (raw_value : Context.pyvalue) :
  (∀ ctx', Context.set_verbose int_of_str Context.new raw_value ≠ inr ctx') ∧
  (∀ items, Context._args ctx = Context.ArgsDict items →
            Context.set_verbose int_of_str ctx raw_value
            = inl (match raw_value with
                   | Context.PNone => Context.TypeError
                   | _ => Context.AttributeError
                   end)).
Proof.
  assert (Hdict : ∀ c items, Context._args c = Context.ArgsDict items →
    Context.set_verbose int_of_str c raw_value
    = inl (match raw_value with
           | Context.PNone => Context.TypeError
           | _ => Context.AttributeError
           end)).
  { intros c items Hc. unfold Context.set_verbose, Context.verbosity.
    rewrite Hc. destruct raw_value as [| | |s]; try done.
    by destruct (int_of_str s). }
  split.
  - intros ctx'. by rewrite (Hdict Context.new ∅ eq_refl).
  - intros items Hc. apply (Hdict ctx items Hc).
Qed.

Lemma set_verbose_needs_namespace_witness :
  Context.set_verbose (λ _, None) (Context.set_args Context.new
                                     (Context.ArgsDict {["verbose" := Context.PInt 0]}))
    (Context.PStr "true")
  = inl Context.AttributeError.
Proof.
  apply (proj2 (set_verbose_needs_namespace (λ _, None)
                  (Context.set_args Context.new
                     (Context.ArgsDict {["verbose" := Context.PInt 0]}))
                  (Context.PStr "true"))
           {["verbose" := Context.PInt 0]}).
  reflexivity.
Defined.
